(** * ChromeEnvironment: proxy pool, indicator matcher and waiter registry

    A shallow embedding of [src/lib/ChromeEnvironment.js].  The browser
    driver is not modelled; its events ([request], [response],
    [requestfailed], [load]) and the expiry of [setTimeout] timers are
    steps applied to an explicit environment record that mirrors the
    fields of the [ChromeEnvironment] object. *)

From Stdlib Require Import Bool Arith ZArith List String Ascii Lia.
Import ListNotations.
Local Open Scope string_scope.

(* ------------------------------------------------------------------ *)
(** ** JavaScript helpers *)

Module Js.

(** Characters and strings. *)
Definition is_ch (c : ascii) (n : nat) : bool := Nat.eqb (nat_of_ascii c) n.

Definition is_lower (c : ascii) : bool :=
  (Nat.leb 97 (nat_of_ascii c)) && (Nat.leb (nat_of_ascii c) 122).
Definition is_upper (c : ascii) : bool :=
  (Nat.leb 65 (nat_of_ascii c)) && (Nat.leb (nat_of_ascii c) 90).
Definition is_digit (c : ascii) : bool :=
  (Nat.leb 48 (nat_of_ascii c)) && (Nat.leb (nat_of_ascii c) 57).

(** [String.prototype.toLowerCase] on ASCII. *)
Definition lower_char (c : ascii) : ascii :=
  if is_upper c then ascii_of_nat (nat_of_ascii c + 32) else c.
Definition to_lower (s : list ascii) : list ascii := map lower_char s.

(** [\s] of a regular expression, restricted to ASCII. *)
Definition is_space (c : ascii) : bool :=
  is_ch c 32 || ((Nat.leb 9 (nat_of_ascii c)) && (Nat.leb (nat_of_ascii c) 13)).

(** [s.indexOf(c)] on a list of characters, [None] for [-1]. *)
Fixpoint index_of (p : ascii -> bool) (s : list ascii) : option nat :=
  match s with
  | [] => None
  | c :: s' => if p c then Some 0 else option_map S (index_of p s')
  end.

(** Truthiness of a nullable string ([null] and [""] are falsy) and
    the value of [a || b]. *)
Definition truthy (o : option string) : bool :=
  match o with Some s => negb (String.eqb s "") | None => false end.
Definition or_else (a b : option string) : option string :=
  if truthy a then a else b.

(** String concatenation [s + x] of a nullable string: [null] prints
    as ["null"]. *)
Definition show (o : option string) : string :=
  match o with Some s => s | None => "null" end.

(** A nullable pattern: [undefined] builds the empty regular expression. *)
Definition show_or_empty (o : option string) : string :=
  match o with Some s => s | None => "" end.

End Js.

(* ------------------------------------------------------------------ *)
(** ** Node's legacy [url.parse]

    The [url] module is external to the repository.  This is its
    algorithm (lib/url.js, [Url.prototype.parse]) on inputs without
    surrounding whitespace, user info ([@]) or characters that need
    escaping: the simple-path fast path, the protocol, the slashes, the
    host and its port, then search and pathname.  Unset fields are
    [null], as in [Url].  Not modelled, so not faithful on inputs that
    need them: trimming of white space and control characters, the
    conversion of backslashes before [?] and [#], splitting user info at
    [@], stripping IPv6 brackets and validating host characters. *)

Module Url.
Import Js.

Record url := mk_url {
  protocol : option string;
  hostname : option string;
  pathname : option string;
  search : option string;
  path : option string }.

Definition str (l : list ascii) : string := string_of_list_ascii l.
Definition chars (s : string) : list ascii := list_ascii_of_string s.

Definition slash (c : ascii) : bool := is_ch c 47.
Definition question (c : ascii) : bool := is_ch c 63.
Definition hash (c : ascii) : bool := is_ch c 35.

(** [simplePathPattern]: one or two leading slashes not followed by a
    third one, and no white space. *)
Definition simple_path (s : list ascii) : bool :=
  match s with
  | c1 :: rest =>
      slash c1
      && negb (match rest with
               | c2 :: c3 :: _ => slash c2 && slash c3
               | _ => false end)
      && negb (existsb is_space s)
  | [] => false
  end.

(** [protocolPattern = /^([a-z0-9.+-]+:)/i]: the scheme characters and the
    remainder after the colon. *)
Definition scheme_char (c : ascii) : bool :=
  is_lower c || is_upper c || is_digit c || is_ch c 46 || is_ch c 43 || is_ch c 45.

Fixpoint split_proto (s : list ascii) : option (list ascii * list ascii) :=
  match s with
  | [] => None
  | c :: s' =>
      if is_ch c 58 then None
      else if scheme_char c then
        match s' with
        | c' :: s'' => if is_ch c' 58 then Some ([c], s'')
                       else option_map (fun '(p, r) => (c :: p, r)) (split_proto s')
        | [] => None
        end
      else None
  end.

Definition slashed_protocol (p : string) : bool :=
  existsb (String.eqb p)
    ["http"; "http:"; "https"; "https:"; "ftp"; "ftp:"; "gopher"; "gopher:";
     "file"; "file:"; "ws"; "ws:"; "wss"; "wss:"].
Definition hostless_protocol (p : string) : bool :=
  existsb (String.eqb p) ["javascript"; "javascript:"].

(** [/^\/\/[^@\/]+@[^@\/]+/]. *)
Definition at_slash (c : ascii) : bool := is_ch c 64 || slash c.
Fixpoint auth_rest (s : list ascii) (seen : bool) : bool :=
  match s with
  | [] => false
  | c :: s' =>
      if is_ch c 64 then
        seen && match s' with c' :: _ => negb (at_slash c') | [] => false end
      else if slash c then false
      else auth_rest s' true
  end.
Definition auth_pattern (s : list ascii) : bool :=
  match s with
  | c1 :: c2 :: s' => slash c1 && slash c2 && auth_rest s' false
  | _ => false
  end.

(** Characters that end the host: the host-ending characters [# / ?] and
    the characters never allowed in a host name. *)
Definition host_end (c : ascii) : bool :=
  hash c || slash c || question c ||
  existsb (is_ch c) [9; 10; 13; 32; 34; 37; 39; 59; 60; 62; 92; 94; 96; 123; 124; 125].

(** [parseHost]: strip a trailing [/:[0-9]*$/]. *)
Fixpoint drop_digits (r : list ascii) : list ascii :=
  match r with
  | c :: r' => if is_digit c then drop_digits r' else r
  | [] => []
  end.
Definition strip_port (h : list ascii) : list ascii :=
  match drop_digits (rev h) with
  | c :: before => if is_ch c 58 then rev before else h
  | [] => h
  end.

(** [x || ''] of a nullable string. *)
Definition show_empty (o : option string) : string :=
  match o with Some s => s | None => ""%string end.

(** Search and pathname of what is left after the host; [lower_proto] and
    [hn] are the protocol and host name found so far. *)
Definition finish (lower_proto hn : option string) (rest : list ascii) : url :=
  let rest' := match index_of hash rest with
               | Some i => firstn i rest | None => rest end in
  let q := index_of question rest' in
  let search := match q with
                | Some i => Some (str (skipn i rest')) | None => None end in
  let pathname := match q with
                  | Some 0 => None
                  | Some i => Some (str (firstn i rest'))
                  | None => match rest' with [] => None | _ => Some (str rest') end
                  end in
  let pathname :=
    if (match lower_proto with Some p => slashed_protocol p | None => false end)
       && truthy hn && negb (truthy pathname)
    then Some "/" else pathname in
  let path :=
    if truthy pathname || truthy search
    then Some (show_empty pathname ++ show_empty search)%string else None in
  mk_url lower_proto hn pathname search path.

Definition parse (s : string) : url :=
  let rest := chars s in
  if negb (existsb hash rest) && simple_path rest then
    let q := index_of question rest in
    mk_url None None
      (Some (str (match q with Some i => firstn i rest | None => rest end)))
      (match q with Some i => Some (str (skipn i rest)) | None => None end)
      (Some s)
  else
    let '(proto, lower_proto, rest1) :=
      match split_proto rest with
      | Some (p, r) => (Some (str (p ++ [":"%char])%list),
                        Some (str (to_lower p ++ [":"%char])%list), r)
      | None => (None, None, rest)
      end in
    let hostless := match lower_proto with
                    | Some p => hostless_protocol p | None => false end in
    let slashes :=
      (match proto with Some _ => true | None => false end || auth_pattern rest1)
      && match rest1 with c1 :: c2 :: _ => slash c1 && slash c2 | _ => false end in
    let rest2 := if slashes && negb hostless then skipn 2 rest1 else rest1 in
    if negb hostless
       && (slashes || match proto with
                      | Some p => negb (slashed_protocol p) | None => false end)
    then
      let e := match index_of host_end rest2 with
               | Some i => i | None => List.length rest2 end in
      let host := firstn e rest2 in
      finish lower_proto (Some (str (to_lower (strip_port host)))) (skipn e rest2)
    else finish lower_proto None rest2.

End Url.

(* ------------------------------------------------------------------ *)
(** ** [getRedirectUrl] and [extractRedirectUrl] *)

Definition getRedirectUrl (currentUrl redirectUri : string) : string :=
  let parsedCurrentUrl := Url.parse currentUrl in
  let parsedRedirectUri := Url.parse redirectUri in
  let hostname := Js.or_else (Url.hostname parsedRedirectUri)
                             (Url.hostname parsedCurrentUrl) in
  let protocol := Js.or_else (Url.protocol parsedRedirectUri)
                             (Url.protocol parsedCurrentUrl) in
  (Js.show protocol ++ "//" ++ Js.show hostname
   ++ Js.show (Url.path parsedRedirectUri))%string.

(** [extractRedirectUrl]: the first header whose lower-cased name is
    [location]; headers are the (key, value) pairs of the object in key
    order. *)
Definition extractRedirectUrl (requestUrl : string) (headers : list (string * string))
  : string :=
  match find (fun '(k, _) => String.eqb (Url.str (Js.to_lower (Url.chars k))) "location")
             headers with
  | Some (headerKey, v) =>
      if Js.truthy (Some headerKey) && Js.truthy (Some v)
      then getRedirectUrl requestUrl v else ""
  | None => ""
  end.

(* ------------------------------------------------------------------ *)
(** ** A fragment of [String.prototype.match]

    [str_match s p] is [s.match(p) !== null] for a pattern [p] given as a
    string (converted to a [RegExp]).  The environment below is
    parametric in it; this matcher, for patterns made of literal
    characters, [.], [*], [^] and [$], instantiates it in examples. *)

Module Regex.
Import Js.

Fixpoint match_here (re text : list ascii) {struct re} : bool :=
  match re with
  | [] => true
  | c :: re1 =>
      let single (k : list ascii -> bool) :=
        match text with
        | x :: t => (is_ch c 46 || Ascii.eqb c x) && k t
        | [] => false
        end in
      match re1 with
      | s :: re2 =>
          if is_ch s 42 then
            (fix star (t : list ascii) : bool :=
               match_here re2 t
               || match t with
                  | x :: t' => (is_ch c 46 || Ascii.eqb c x) && star t'
                  | [] => false
                  end) text
          else single (match_here re1)
      | [] =>
          if is_ch c 36 then match text with [] => true | _ => false end
          else single (match_here re1)
      end
  end.

Fixpoint match_anywhere (re text : list ascii) : bool :=
  match_here re text
  || match text with _ :: t => match_anywhere re t | [] => false end.

Definition str_match (s pat : string) : bool :=
  match Url.chars pat with
  | c :: re => if is_ch c 94 then match_here re (Url.chars s)
               else match_anywhere (c :: re) (Url.chars s)
  | [] => true
  end.

End Regex.

(* ------------------------------------------------------------------ *)
(** ** Data model *)

(** A JavaScript value, as far as the strict equalities of the code need it. *)
Inductive jsval :=
| JUndefined
| JNull
| JNum (n : Z)
| JStr (s : string)
| JFun (name : string).

(** [a === b]; two functions are identical when they are the same method. *)
Definition strict_eq (a b : jsval) : bool :=
  match a, b with
  | JUndefined, JUndefined | JNull, JNull => true
  | JNum x, JNum y => Z.eqb x y
  | JStr x, JStr y => String.eqb x y
  | JFun x, JFun y => String.eqb x y
  | _, _ => false
  end.

Record proxy := mk_proxy {
  host : string;
  port : Z;
  username : option string;
  password : option string }.

(** [this._proxy]: [null], a single proxy, or a proxy list. *)
Inductive proxy_conf :=
| PNull
| PSingle (p : proxy)
| PList (l : list proxy).

(** [this._proxyCurrent]: [null], [undefined] ([sample] of an empty list),
    a proxy, or a promise of one of these. *)
Inductive current :=
| CNull
| CUndefined
| CProxy (p : proxy)
| CPromise (v : current).

Record proxy_indicator := mk_indicator {
  ind_type : string;
  ind_level : option string;
  ind_url : option string;
  ind_code : jsval }.

(** The [Error] built by [createProxyError]. *)
Record proxy_error := mk_error {
  message : string;
  proxyIndicator : string;
  proxyLevel : string }.

(** A driver [Response]: [status()], [headers()] and [request().url()]. *)
Record response := mk_response {
  resp_status : Z;
  resp_headers : list (string * string);
  resp_request_url : string }.

(** [response.status] read as a property is Puppeteer's [status] method. *)
Definition status_property (r : response) : jsval := JFun "status".

(** A driver [Request] as seen by [requestfailed]: [url()] and [response()]. *)
Record request := mk_request {
  rq_url : string;
  rq_response : option response }.

(** The settlement of a waiter's promise. *)
Inductive settlement :=
| Resolved (v : option string)
| Rejected (reason : string).

(** An entry of [this._requestingActions]: the pattern and the waiter whose
    [fn] it carries. *)
Record req_action := mk_req_action {
  pattern : string;
  req_waiter : nat }.

Inductive timer_kind := NavTimer | ReqTimer.

(** Waiter registry: the two collections, the pending [setTimeout] timers
    (one per waiter, named by the waiter) and the settled promises. *)
Record registry := mk_registry {
  navigationActions : list nat;
  requestingActions : list req_action;
  timers : list (nat * timer_kind);
  settled : list (nat * settlement);
  next_waiter : nat }.

(** Proxy pool: [this._proxy], [this._proxyCurrent], [this._proxyErrors]. *)
Record pool := mk_pool {
  proxy_list : proxy_conf;
  proxyCurrent : current;
  proxyErrors : list proxy_error }.

(** The options the core reads. *)
Record config := mk_config {
  proxyIndicators : list proxy_indicator;
  proxyRotator : option (list proxy -> current -> current);
  env_url : string }.

Record env := mk_env {
  cfg : config;
  env_pool : pool;
  redirectUrls : list string;
  env_reg : registry }.

Definition set_pool (p : pool) (e : env) : env :=
  mk_env (cfg e) p (redirectUrls e) (env_reg e).
Definition set_redirects (l : list string) (e : env) : env :=
  mk_env (cfg e) (env_pool e) l (env_reg e).
Definition set_reg (r : registry) (e : env) : env :=
  mk_env (cfg e) (env_pool e) (redirectUrls e) r.

Definition set_navigation (l : list nat) (r : registry) : registry :=
  mk_registry l (requestingActions r) (timers r) (settled r) (next_waiter r).
Definition set_requesting (l : list req_action) (r : registry) : registry :=
  mk_registry (navigationActions r) l (timers r) (settled r) (next_waiter r).

(* ------------------------------------------------------------------ *)
(** ** Proxy pool *)

Fixpoint find_index {A} (f : A -> bool) (l : list A) : option nat :=
  match l with
  | [] => None
  | x :: l' => if f x then Some 0 else option_map S (find_index f l')
  end.

(** [array.splice(i, 1)]. *)
Definition splice_one {A} (i : nat) (l : list A) : list A :=
  (firstn i l ++ skipn (S i) l)%list.

(** [array.pop()]: the last element ([undefined] on an empty array) and
    the array without it. *)
Fixpoint pop {A} (l : list A) : option A * list A :=
  match l with
  | [] => (None, [])
  | [x] => (Some x, [])
  | x :: l' => let '(o, r) := pop l' in (o, x :: r)
  end.

Definition addProxyError (err : proxy_error) (p : pool) : pool :=
  mk_pool (proxy_list p) (proxyCurrent p) (proxyErrors p ++ [err])%list.

Definition getProxyErrors (p : pool) : list proxy_error := proxyErrors p.

Inductive validation := VResolved | VRejected (reason : option proxy_error).

(** [_validateProxy]: [pop] mutates the array [getProxyErrors] returns. *)
Definition validateProxy (p : pool) : validation * pool :=
  if Nat.eqb (List.length (getProxyErrors p)) 0 then (VResolved, p)
  else let '(e, rest) := pop (getProxyErrors p) in
       (VRejected e, mk_pool (proxy_list p) (proxyCurrent p) rest).

(** [createProxyError]; [None] is the thrown [Unsupported proxyIndicator]. *)
Definition createProxyError (i : proxy_indicator) : option proxy_error :=
  let msg :=
    if String.eqb (ind_type i) "redirect" then Some "Proxy matched redirect"
    else if String.eqb (ind_type i) "responseCode" then Some "Proxy matched response code"
    else if String.eqb (ind_type i) "captcha" then Some "Captcha handled"
    else None in
  option_map
    (fun m => mk_error m (ind_type i) (Js.show (Js.or_else (ind_level i) (Some "medium"))))
    msg.

Definition getProxyIndicators (c : config) (type : string) : list proxy_indicator :=
  filter (fun item => String.eqb (ind_type item) type) (proxyIndicators c).

Definition same_proxy (c item : proxy) : bool :=
  String.eqb (host item) (host c) && Z.eqb (port item) (port c).

(** [_removeUnavailableProxy] on a proxy list; [None] is the [TypeError]
    of reading [current.host] when [current] is [undefined]. *)
Definition removeUnavailableProxy (l : list proxy) (cur : current) : option (list proxy) :=
  match l with
  | [] => Some l
  | _ =>
      match cur with
      | CNull => Some l
      | CUndefined => None
      | CProxy c =>
          match find_index (same_proxy c) l with
          | Some i => Some (splice_one i l)
          | None => Some l
          end
      | CPromise _ => Some l  (* a promise has no [host]: [findIndex] is [-1] *)
      end
  end.

(** lodash [sample], drawing index [rnd mod length]. *)
Definition sample (rnd : nat) (l : list proxy) : current :=
  match nth_error l (Nat.modulo rnd (List.length l)) with
  | Some p => CProxy p
  | None => CUndefined
  end.

(** The value an [async] function returning [c] resolves to. *)
Fixpoint resolve_value (c : current) : current :=
  match c with CPromise v => resolve_value v | _ => c end.

(** [_rotateProxy]: returns the value the call resolves to, [None] when it
    rejects.  [await (typeof rotator === 'function') ? a : b] awaits the
    condition only, so [foundProxy] is the rotator's result or the
    promise [Promise.resolve(sample(proxy))]. *)
Definition rotateProxy (rotator : option (list proxy -> current -> current))
    (rnd : nat) (p : pool) : option (current * pool) :=
  let currentProxy := proxyCurrent p in
  match proxy_list p with
  | PNull => Some (CNull, p)
  | PList l =>
      match removeUnavailableProxy l currentProxy with
      | None => None
      | Some l' =>
          let foundProxy :=
            match rotator with
            | Some f => f l' currentProxy
            | None => CPromise (sample rnd l')
            end in
          Some (resolve_value foundProxy, mk_pool (PList l') foundProxy [])
      end
  | PSingle q => Some (CProxy q, mk_pool (PSingle q) (CProxy q) (proxyErrors p))
  end.
(** [k] sequential [_rotateProxy] calls with no refill of the list. *)
Fixpoint rotate_times (rotator : option (list proxy -> current -> current))
    (rnd : nat) (k : nat) (p : pool) : option pool :=
  match k with
  | 0 => Some p
  | S k' =>
      match rotateProxy rotator rnd p with
      | Some (_, p') => rotate_times rotator rnd k' p'
      | None => None
      end
  end.

(** Sequential [_rotateProxy] calls with the random draws [rnds]: the
    values the calls resolve to and the final pool. *)
Fixpoint rotate_draws (rotator : option (list proxy -> current -> current))
    (rnds : list nat) (p : pool) : option (list current * pool) :=
  match rnds with
  | [] => Some ([], p)
  | rnd :: rnds' =>
      match rotateProxy rotator rnd p with
      | Some (v, p') => option_map (fun '(vs, p'') => (v :: vs, p'')) (rotate_draws rotator rnds' p')
      | None => None
      end
  end.

(* ------------------------------------------------------------------ *)
(** ** Waiter registry *)

Definition is_settled (w : nat) (r : registry) : bool :=
  existsb (fun '(x, _) => Nat.eqb x w) (settled r).

(** A promise settles once; later [resolve]/[reject] calls are no-ops. *)
Definition settle (w : nat) (o : settlement) (r : registry) : registry :=
  if is_settled w r then r
  else mk_registry (navigationActions r) (requestingActions r) (timers r)
                   (settled r ++ [(w, o)])%list (next_waiter r).

Definition clearTimeout (w : nat) (r : registry) : registry :=
  mk_registry (navigationActions r) (requestingActions r)
              (filter (fun '(x, _) => negb (Nat.eqb x w)) (timers r))
              (settled r) (next_waiter r).

(** The callback of [waitForPage] and the [fn] of [waitForQuery]:
    [clearTimeout(timeoutId)], then resolve or reject. *)
Definition callback (w : nat) (o : settlement) (r : registry) : registry :=
  settle w o (clearTimeout w r).

(** [waitForPage]: arm the timer, push the callback. *)
Definition waitForPage (r : registry) : nat * registry :=
  let w := next_waiter r in
  (w, mk_registry (navigationActions r ++ [w])%list (requestingActions r)
                  (timers r ++ [(w, NavTimer)])%list (settled r) (S w)).

(** [waitForQuery(uri)]: arm the timer, push [{pattern: uri, fn}]. *)
Definition waitForQuery (uri : string) (r : registry) : nat * registry :=
  let w := next_waiter r in
  (w, mk_registry (navigationActions r)
                  (requestingActions r ++ [mk_req_action uri w])%list
                  (timers r ++ [(w, ReqTimer)])%list (settled r) (S w)).

(** The expiry of waiter [w]'s timer, when it is still pending.  The
    [waitForPage] timer runs [this._navigationActions = []] and rejects;
    the [waitForQuery] timer runs [this._requestingActions = []] and
    rejects. *)
Definition fire_timer (w : nat) (r : registry) : registry :=
  match find (fun '(x, _) => Nat.eqb x w) (timers r) with
  | Some (_, NavTimer) =>
      settle w (Rejected "Page navigation timeout") (set_navigation [] (clearTimeout w r))
  | Some (_, ReqTimer) =>
      settle w (Rejected "Waiting request timeout") (set_requesting [] (clearTimeout w r))
  | None => r
  end.

(** [this._navigationActions.splice(0).forEach(callback => callback(err))]. *)
Definition drain_navigation (o : settlement) (r : registry) : registry :=
  fold_left (fun r w => callback w o r) (navigationActions r) (set_navigation [] r).

(** The [load] handler. *)
Definition on_load (r : registry) : registry := drain_navigation (Resolved None) r.

Section Events.

(** [str_match s p] is [s.match(p) !== null]. *)
Variable str_match : string -> string -> bool.

(** The [while] loop of the [request] handler over [actions] (the array
    object [this._requestingActions]): on a match, [actions.shift()] and
    [action.fn(null, url)]; otherwise [i++].  Each round increments [i] or
    shortens the array, so [length actions] rounds reach the exit test. *)
Fixpoint request_loop (fuel i : nat) (url : string) (actions : list req_action)
    (r : registry) : list req_action * registry :=
  match fuel with
  | 0 => (actions, r)
  | S fuel' =>
      if Nat.ltb i (List.length actions) then
        match nth_error actions i with
        | Some action =>
            if str_match url (pattern action) then
              request_loop fuel' i url (tl actions)
                (callback (req_waiter action) (Resolved (Some url)) r)
            else request_loop fuel' (S i) url actions r
        | None => (actions, r)
        end
      else (actions, r)
  end.

(** The [request] handler. *)
Definition on_request (url : string) (r : registry) : registry :=
  let actions := requestingActions r in
  let '(actions', r') := request_loop (List.length actions) 0 url actions r in
  set_requesting actions' r'.

(** Record an error built from [matched], or throw. *)
Definition add_error_for (matched : option proxy_indicator) (e : env) : option env :=
  match matched with
  | Some m =>
      option_map (fun err => set_pool (addProxyError err (env_pool e)) e)
                 (createProxyError m)
  | None => Some e
  end.

Definition last_opt (l : list string) : option string :=
  match rev l with x :: _ => Some x | [] => None end.

(** [hasRedirect(urlPattern)]: without a (truthy) pattern, whether the
    chain is non-empty; otherwise whether some entry matches it. *)
Definition hasRedirect (urlPattern : option string) (chain : list string) : bool :=
  if negb (Js.truthy urlPattern) then Nat.ltb 0 (List.length chain)
  else existsb (fun url => str_match url (Js.show_or_empty urlPattern)) chain.

(** The [response] handler; [None] is a thrown error.  [s.match(undefined)]
    matches like [s.match('')]. *)
Definition on_response (resp : response) (e : env) : option env :=
  let url := resp_request_url resp in
  if Z.eqb (resp_status resp) 302 || Z.eqb (resp_status resp) 301 then
    let redirectUrl := extractRedirectUrl url (resp_headers resp) in
    let e1 :=
      if Js.truthy (Some redirectUrl)
         && (String.eqb url (env_url (cfg e))
             || match last_opt (redirectUrls e) with
                | Some u => String.eqb url u | None => false end)
      then set_redirects (redirectUrls e ++ [redirectUrl])%list e
      else e in
    let matched :=
      find (fun item => str_match redirectUrl (Js.show_or_empty (ind_url item)))
           (getProxyIndicators (cfg e) "redirect") in
    add_error_for matched e1
  else Some e.

(** The [requestfailed] handler: [item.code === response.status] compares
    with the [status] property of the response. *)
Definition on_requestfailed (rq : request) (e : env) : option env :=
  let e1 :=
    match rq_response rq with
    | Some resp =>
        let matched :=
          find (fun item => strict_eq (ind_code item) (status_property resp))
               (getProxyIndicators (cfg e) "responseCode") in
        add_error_for matched e
    | None => Some e
    end in
  option_map
    (fun e1 =>
       if String.eqb (rq_url rq) (env_url (cfg e))
       then set_reg (drain_navigation (Rejected "Page is not loaded") (env_reg e1)) e1
       else e1)
    e1.

(** The operations on the environment that the core performs. *)
Inductive op :=
| OpRotateProxy (rnd : nat)
| OpValidateProxy
| OpAddProxyError (err : proxy_error)
| OpWaitForPage
| OpWaitForQuery (uri : string)
| OpTimeout (w : nat)
| OpLoad
| OpRequest (url : string)
| OpResponse (resp : response)
| OpRequestFailed (rq : request).

Definition step (o : op) (e : env) : option env :=
  match o with
  | OpRotateProxy rnd =>
      option_map (fun '(_, p) => set_pool p e)
                 (rotateProxy (proxyRotator (cfg e)) rnd (env_pool e))
  | OpValidateProxy => Some (set_pool (snd (validateProxy (env_pool e))) e)
  | OpAddProxyError err => Some (set_pool (addProxyError err (env_pool e)) e)
  | OpWaitForPage => Some (set_reg (snd (waitForPage (env_reg e))) e)
  | OpWaitForQuery uri => Some (set_reg (snd (waitForQuery uri (env_reg e))) e)
  | OpTimeout w => Some (set_reg (fire_timer w (env_reg e)) e)
  | OpLoad => Some (set_reg (on_load (env_reg e)) e)
  | OpRequest url => Some (set_reg (on_request url (env_reg e)) e)
  | OpResponse resp => on_response resp e
  | OpRequestFailed rq => on_requestfailed rq e
  end.

End Events.

(* ------------------------------------------------------------------ *)
(** ** Peripheral operations *)

(** [evaluateJs(...args)]: [args.pop()] must be a function, else it
    throws ([None]); the function goes back to the front and the list is
    what [page.evaluate] receives. *)
Definition evaluateJs (args : list jsval) : option (list jsval) :=
  let '(evalFunc, rest) := pop args in
  match evalFunc with
  | Some (JFun f) => Some (JFun f :: rest)
  | _ => None
  end.

(** The driver session as [tearDown] sees it: [this._browser] (with the
    pid [process()] returns, [null] for a connected browser),
    whether [this._page] is set, and the close calls issued so far. *)
Record session := mk_session {
  sess_browser : option (option nat);
  sess_page : bool;
  close_calls : list string }.

(** [tearDown]: nothing when there is no browser or no process; otherwise
    close the page (if any) and the browser and delete both fields. *)
Definition tearDown (s : session) : session :=
  match sess_browser s with
  | None | Some None => s
  | Some (Some _) =>
      let calls := if sess_page s then (close_calls s ++ ["page.close"])%list
                   else close_calls s in
      mk_session None false (calls ++ ["browser.close"])%list
  end.

(* ------------------------------------------------------------------ *)
(** ** Sample configurations *)

Definition empty_reg : registry := mk_registry [] [] [] [] 0.

Definition env0 (inds : list proxy_indicator) (pc : proxy_conf)
    (rot : option (list proxy -> current -> current)) : env :=
  mk_env (mk_config inds rot "http://a.com/") (mk_pool pc CNull []) [] empty_reg.

Definition p1 : proxy := mk_proxy "1.1.1.1" 80 None None.
Definition p2 : proxy := mk_proxy "2.2.2.2" 81 None None.

(** A rotation policy that takes the head of the remaining list. *)
Definition head_rotator (l : list proxy) (_ : current) : current :=
  match l with q :: _ => CProxy q | [] => CUndefined end.

Definition ind503 : proxy_indicator := mk_indicator "responseCode" (Some "high") None (JNum 503).
Definition ind_any_redirect : proxy_indicator :=
  mk_indicator "redirect" (Some "high") (Some ".*") JUndefined.

(** Two request waiters, [0] on [/api/data] and [1] on [/other]. *)
Definition two_queries : registry :=
  snd (waitForQuery "/other" (snd (waitForQuery "/api/data" empty_reg))).


(** Two navigation waiters [0] and [1]. *)
Definition two_pages : registry := snd (waitForPage (snd (waitForPage empty_reg))).

(* ------------------------------------------------------------------ *)
(** ** Lemmas *)

Lemma pop_snoc {A} (l : list A) (x : A) : pop (l ++ [x])%list = (Some x, l).
Proof.
  induction l as [|a l IH]; [reflexivity|].
  simpl. rewrite IH. destruct l; reflexivity.
Qed.

Lemma find_first_pair (w : nat) {B} (l : list (nat * B)) (b : B) :
  NoDup (map fst l) -> In (w, b) l ->
  find (fun '(x, _) => Nat.eqb x w) l = Some (w, b).
Proof.
  induction l as [|[x c] l IH]; simpl; intros Hnd Hin; [contradiction|].
  inversion Hnd as [|? ? Hx Hnd']; subst.
  destruct Hin as [Heq | Hin].
  - inversion Heq; subst. now rewrite Nat.eqb_refl.
  - destruct (Nat.eqb_spec x w) as [->|Hne].
    + exfalso. apply Hx. now apply (in_map fst) in Hin.
    + now apply IH.
Qed.

Lemma settled_clearTimeout w r : settled (clearTimeout w r) = settled r.
Proof. reflexivity. Qed.

Lemma is_settled_clearTimeout w w' r : is_settled w' (clearTimeout w r) = is_settled w' r.
Proof. reflexivity. Qed.

Lemma settle_fresh w o r :
  is_settled w r = false -> settled (settle w o r) = (settled r ++ [(w, o)])%list.
Proof. unfold settle. now intros ->. Qed.

Lemma is_settled_settle_other w w' o r :
  w' <> w -> is_settled w' (settle w o r) = is_settled w' r.
Proof.
  intros Hne. unfold settle, is_settled. destruct (existsb _ (settled r)); [reflexivity|].
  simpl. rewrite existsb_app. simpl.
  destruct (Nat.eqb_spec w w') as [->|_]; [congruence|].
  now rewrite orb_false_r.
Qed.

Lemma timers_settle w o r : timers (settle w o r) = timers r.
Proof. unfold settle. now destruct (is_settled w r). Qed.

Lemma in_timers_clear w w' k r :
  w' <> w -> In (w', k) (timers r) -> In (w', k) (timers (clearTimeout w r)).
Proof.
  intros Hne Hin. simpl. apply filter_In. split; [assumption|].
  destruct (Nat.eqb_spec w' w); [contradiction|reflexivity].
Qed.

Lemma nodup_timers_clear w r :
  NoDup (map fst (timers r)) -> NoDup (map fst (timers (clearTimeout w r))).
Proof.
  simpl. induction (timers r) as [|[x k] l IH]; simpl; intros Hnd; [constructor|].
  inversion Hnd as [|? ? Hx Hnd']; subst.
  destruct (negb (Nat.eqb x w)); simpl; [|now apply IH].
  constructor; [|now apply IH].
  intros Hin. apply Hx. apply in_map_iff in Hin as [[y k'] [Hy Hin]].
  apply filter_In in Hin as [Hin _]. simpl in Hy; subst.
  now apply (in_map fst) in Hin.
Qed.

(** Callbacks run in order on distinct, still pending waiters settle each
    of them once, in that order. *)
Lemma settled_callbacks o ws r :
  NoDup ws -> Forall (fun w => is_settled w r = false) ws ->
  settled (fold_left (fun r w => callback w o r) ws r)
  = (settled r ++ map (fun w => (w, o)) ws)%list.
Proof.
  revert r. induction ws as [|w ws IH]; intros r Hnd Hall; simpl.
  - now rewrite app_nil_r.
  - inversion Hnd as [|? ? Hw Hnd']; subst. inversion Hall as [|? ? Hw0 Hall']; subst.
    rewrite IH; [|assumption|].
    + unfold callback. rewrite settle_fresh by (now rewrite is_settled_clearTimeout).
      now rewrite <- app_assoc.
    + apply Forall_forall. intros w' Hin. unfold callback.
      rewrite is_settled_settle_other by (intros ->; contradiction).
      rewrite is_settled_clearTimeout. now apply (proj1 (Forall_forall _ _) Hall').
Qed.

Lemma settle_fields w o r :
  settle w o r =
  mk_registry (navigationActions r) (requestingActions r) (timers r)
    (if is_settled w r then settled r else (settled r ++ [(w, o)])%list) (next_waiter r).
Proof. unfold settle. destruct (is_settled w r); [now destruct r|reflexivity]. Qed.

Lemma skipn_tl {A} (i : nat) (l : list A) : skipn i (tl l) = skipn (S i) l.
Proof. destruct l; simpl; [now rewrite skipn_nil|reflexivity]. Qed.

Lemma skipn_nth_error {A} (i : nat) (l : list A) (a : A) :
  nth_error l i = Some a -> skipn i l = a :: skipn (S i) l.
Proof.
  revert l. induction i as [|i IH]; intros [|x l] H; simpl in *; try discriminate.
  - now inversion H.
  - now apply IH.
Qed.

(** The [request] loop invokes, in order, the [fn] of every action from
    index [i] on whose pattern matches. *)
Lemma request_loop_callbacks sm url fuel i acts r :
  List.length acts - i <= fuel ->
  snd (request_loop sm fuel i url acts r)
  = fold_left (fun r w => callback w (Resolved (Some url)) r)
      (map req_waiter (filter (fun a => sm url (pattern a)) (skipn i acts))) r.
Proof.
  revert i acts r. induction fuel as [|fuel IH]; intros i acts r Hf.
  - simpl. now rewrite skipn_all2 by lia.
  - simpl. destruct (Nat.ltb_spec i (List.length acts)) as [Hlt|Hge].
    + destruct (nth_error acts i) as [a|] eqn:Ha.
      2:{ apply nth_error_None in Ha. lia. }
      rewrite (skipn_nth_error i acts a Ha). simpl.
      destruct (sm url (pattern a)) eqn:Hm.
      * rewrite IH.
        -- now rewrite skipn_tl.
        -- destruct acts as [|a0 acts]; cbn [tl List.length] in *; lia.
      * apply IH. lia.
    + simpl. now rewrite skipn_all2 by lia.
Qed.


(** A fired timer of a well-formed registry (timers named by distinct
    waiters) is the one armed for that waiter. *)
Lemma fire_timer_req r w :
  NoDup (map fst (timers r)) -> In (w, ReqTimer) (timers r) ->
  fire_timer w r
  = settle w (Rejected "Waiting request timeout") (set_requesting [] (clearTimeout w r)).
Proof. intros Hnd Hin. unfold fire_timer. now rewrite (find_first_pair w _ _ Hnd Hin). Qed.

Lemma fire_timer_nav r w :
  NoDup (map fst (timers r)) -> In (w, NavTimer) (timers r) ->
  fire_timer w r
  = settle w (Rejected "Page navigation timeout") (set_navigation [] (clearTimeout w r)).
Proof. intros Hnd Hin. unfold fire_timer. now rewrite (find_first_pair w _ _ Hnd Hin). Qed.

Lemma find_all_false {A} (g : A -> bool) (l : list A) :
  (forall x, In x l -> g x = false) -> find g l = None.
Proof.
  induction l as [|a l IH]; simpl; intros H; [reflexivity|].
  rewrite (H a (or_introl eq_refl)). apply IH. intros x Hx. apply H. now right.
Qed.

Lemma validateProxy_snoc (p : pool) (l : list proxy_error) (e : proxy_error) :
  getProxyErrors p = (l ++ [e])%list ->
  validateProxy p = (VRejected (Some e), mk_pool (proxy_list p) (proxyCurrent p) l).
Proof.
  intros H. unfold validateProxy. rewrite H, length_app, pop_snoc. simpl.
  destruct (Nat.eqb_spec (List.length l + 1) 0); [lia|reflexivity].
Qed.

Lemma extractRedirectUrl_no_location url headers :
  (forall k v, In (k, v) headers -> Url.str (Js.to_lower (Url.chars k)) <> "location") ->
  extractRedirectUrl url headers = "".
Proof.
  intros H. unfold extractRedirectUrl. rewrite find_all_false; [reflexivity|].
  intros [k v] Hin. apply String.eqb_neq. exact (H k v Hin).
Qed.

Lemma createProxyError_redirect i :
  ind_type i = "redirect" ->
  createProxyError i
  = Some (mk_error "Proxy matched redirect" "redirect"
            (Js.show (Js.or_else (ind_level i) (Some "medium")))).
Proof. intros H. unfold createProxyError. now rewrite H. Qed.

(* ------------------------------------------------------------------ *)
(** ** Indicator matcher *)

(** C1 (claim): a [responseCode] indicator whose [code] equals the status of
    the failed request's response yields one [ProxyError].  On the code no
    indicator with a numeric [code] ever matches: [item.code === response.status]
    compares the number with the [status] method, so a [requestfailed]
    event never changes the proxy pool (and never throws). *)
Theorem requestfailed_never_records_responseCode_error (rq : request) (e : env) :
  Forall (fun i => exists n, ind_code i = JNum n) (proxyIndicators (cfg e)) ->
  option_map env_pool (on_requestfailed rq e) = Some (env_pool e).
Proof.
  intros Hnum. unfold on_requestfailed.
  destruct (rq_response rq) as [resp|]; simpl.
  - rewrite find_all_false.
    + simpl. now destruct (String.eqb (rq_url rq) (env_url (cfg e))).
    + intros i Hin. apply filter_In in Hin as [Hin _].
      destruct (proj1 (Forall_forall _ _) Hnum i Hin) as [n Hn].
      unfold status_property. now rewrite Hn.
  - now destruct (String.eqb (rq_url rq) (env_url (cfg e))).
Qed.

(** The failing input of C1: [{type: responseCode, code: 503, level: high}]
    and a failed request whose response has status 503. *)
Lemma requestfailed_never_records_responseCode_error_witness :
  Forall (fun i => exists n, ind_code i = JNum n) (proxyIndicators (cfg (env0 [ind503] PNull None)))
  /\ option_map env_pool
       (on_requestfailed (mk_request "http://a.com/" (Some (mk_response 503 [] "http://a.com/")))
                         (env0 [ind503] PNull None))
     = Some (mk_pool PNull CNull []).
Proof.
  assert (H : Forall (fun i => exists n, ind_code i = JNum n)
                (proxyIndicators (cfg (env0 [ind503] PNull None))))
    by (repeat constructor; eexists; reflexivity).
  split; [exact H|].
  exact (requestfailed_never_records_responseCode_error
           (mk_request "http://a.com/" (Some (mk_response 503 [] "http://a.com/")))
           (env0 [ind503] PNull None) H).
Defined.

(** C9 (counterexample): a 302 response without a [Location] header, with
    the indicator [{type: redirect, url: '.*', level: high}], records a
    [ProxyError]. *)
Lemma response_without_location_records_error :
  option_map (fun e => (redirectUrls e, proxyErrors (env_pool e)))
    (on_response Regex.str_match (mk_response 302 [] "http://a.com/")
       (env0 [ind_any_redirect] PNull None))
  = Some ([], [mk_error "Proxy matched redirect" "redirect" "high"]).
Proof. reflexivity. Qed.

(** C9 (amended): for a 301/302 response without a [Location] header the
    redirect chain is unchanged, and the [redirect] indicators are still
    checked, against the empty string: the error log gains one error for
    the first [redirect] indicator whose pattern matches [''], and nothing
    when there is none. *)
Theorem response_without_location_checks_empty_target sm resp e :
  (resp_status resp = 301%Z \/ resp_status resp = 302%Z) ->
  (forall k v, In (k, v) (resp_headers resp) ->
               Url.str (Js.to_lower (Url.chars k)) <> "location") ->
  exists e', on_response sm resp e = Some e'
    /\ redirectUrls e' = redirectUrls e
    /\ proxyErrors (env_pool e')
       = (proxyErrors (env_pool e)
          ++ match find (fun i => sm "" (Js.show_or_empty (ind_url i)))
                        (getProxyIndicators (cfg e) "redirect") with
             | Some i => [mk_error "Proxy matched redirect" "redirect"
                            (Js.show (Js.or_else (ind_level i) (Some "medium")))]
             | None => []
             end)%list.
Proof.
  intros Hst Hloc. unfold on_response.
  rewrite (extractRedirectUrl_no_location _ _ Hloc).
  replace (Z.eqb (resp_status resp) 302 || Z.eqb (resp_status resp) 301) with true
    by (destruct Hst as [-> | ->]; reflexivity).
  simpl Js.truthy. rewrite andb_false_l.
  unfold add_error_for.
  destruct (find _ (getProxyIndicators (cfg e) "redirect")) as [i|] eqn:Hf.
  - apply find_some in Hf as [Hin _]. apply filter_In in Hin as [_ Ht].
    apply String.eqb_eq in Ht. rewrite (createProxyError_redirect i Ht).
    eexists. split; [reflexivity|]. split; reflexivity.
  - eexists. split; [reflexivity|]. split; [reflexivity|]. simpl. now rewrite app_nil_r.
Qed.

(** A 302 without headers under [{type: redirect, url: '.*', level: high}]. *)
Lemma response_without_location_checks_empty_target_witness :
  exists e', on_response Regex.str_match (mk_response 302 [] "http://a.com/")
               (env0 [ind_any_redirect] PNull None) = Some e'
    /\ redirectUrls e' = []
    /\ proxyErrors (env_pool e') = [mk_error "Proxy matched redirect" "redirect" "high"].
Proof.
  destruct (response_without_location_checks_empty_target Regex.str_match
              (mk_response 302 [] "http://a.com/") (env0 [ind_any_redirect] PNull None)
              (or_intror eq_refl) (fun k v H => match H with end))
    as [e' [H1 [H2 H3]]].
  exists e'. split; [exact H1|]. split; [exact H2|]. rewrite H3. reflexivity.
Defined.

(* ------------------------------------------------------------------ *)
(** ** Redirect resolver *)

(** C8 (claim): the resolver takes the target's host name and protocol when
    present, else the current URL's, and the target's path.  The spec's two
    examples hold, but a relative-path target such as [y] (no host name of
    its own) is appended to the host without a slash: the result
    [http://a.comy] has host name [a.comy], not [a.com]. *)
Theorem getRedirectUrl_relative_path_target :
  getRedirectUrl "http://a.com/x" "/y" = "http://a.com/y"
  /\ getRedirectUrl "http://a.com/x" "https://b.com/z" = "https://b.com/z"
  /\ Url.hostname (Url.parse "y") = None
  /\ Url.path (Url.parse "y") = Some "y"
  /\ getRedirectUrl "http://a.com/x" "y" = "http://a.comy"
  /\ Url.hostname (Url.parse (getRedirectUrl "http://a.com/x" "y")) = Some "a.comy".
Proof. repeat split; reflexivity. Qed.

(* ------------------------------------------------------------------ *)
(** ** Proxy pool: validation *)

(** C5: [validateProxy] resolves when the error log is empty and rejects
    with the most recently appended error otherwise. *)
Theorem validateProxy_rejects_with_last (p : pool) :
  (getProxyErrors p = [] -> fst (validateProxy p) = VResolved)
  /\ (forall l e, getProxyErrors p = (l ++ [e])%list ->
                  fst (validateProxy p) = VRejected (Some e)).
Proof.
  split.
  - intros H. unfold validateProxy. now rewrite H.
  - intros l e H. now rewrite (validateProxy_snoc p l e H).
Qed.

Lemma validateProxy_rejects_with_last_witness :
  fst (validateProxy (mk_pool PNull CNull [])) = VResolved
  /\ fst (validateProxy (mk_pool PNull CNull
                           [mk_error "Proxy matched redirect" "redirect" "low";
                            mk_error "Proxy matched response code" "responseCode" "high"]))
     = VRejected (Some (mk_error "Proxy matched response code" "responseCode" "high")).
Proof.
  split.
  - apply (proj1 (validateProxy_rejects_with_last (mk_pool PNull CNull []))). reflexivity.
  - apply (proj2 (validateProxy_rejects_with_last _)
             [mk_error "Proxy matched redirect" "redirect" "low"]). reflexivity.
Defined.

(** C10: a rejecting [validateProxy] pops exactly the last error: the log
    [getProxyErrors] returns keeps the first [n-1] errors in order, and the
    proxy list and the active proxy are unchanged. *)
Theorem validateProxy_pops_last (p : pool) (l : list proxy_error) (e : proxy_error) :
  getProxyErrors p = (l ++ [e])%list ->
  fst (validateProxy p) = VRejected (Some e)
  /\ getProxyErrors (snd (validateProxy p)) = l
  /\ proxy_list (snd (validateProxy p)) = proxy_list p
  /\ proxyCurrent (snd (validateProxy p)) = proxyCurrent p.
Proof. intros H. rewrite (validateProxy_snoc p l e H). repeat split. Qed.

Lemma validateProxy_pops_last_witness :
  getProxyErrors (snd (validateProxy
    (mk_pool (PList [p1]) (CProxy p2)
       [mk_error "Proxy matched redirect" "redirect" "low";
        mk_error "Proxy matched response code" "responseCode" "high"])))
  = [mk_error "Proxy matched redirect" "redirect" "low"].
Proof.
  apply (validateProxy_pops_last _ [mk_error "Proxy matched redirect" "redirect" "low"]
           (mk_error "Proxy matched response code" "responseCode" "high")).
  reflexivity.
Defined.

(* ------------------------------------------------------------------ *)
(** ** Proxy pool: rotation *)

Lemma find_index_exists {A} (g : A -> bool) (l : list A) (x : A) :
  In x l -> g x = true -> exists i, find_index g l = Some i /\ i < List.length l.
Proof.
  induction l as [|a l IH]; simpl; intros Hin Hg; [contradiction|].
  destruct (g a) eqn:Ha.
  - exists 0. split; [reflexivity|lia].
  - destruct Hin as [<-|Hin]; [congruence|].
    destruct (IH Hin Hg) as [i [Hi Hlt]]. exists (S i). rewrite Hi. split; [reflexivity|lia].
Qed.

Lemma splice_one_length {A} (i : nat) (l : list A) :
  i < List.length l -> List.length (splice_one i l) = List.length l - 1.
Proof.
  intros H. unfold splice_one. rewrite length_app, length_firstn, length_skipn. lia.
Qed.

Lemma same_proxy_refl q : same_proxy q q = true.
Proof. unfold same_proxy. now rewrite String.eqb_refl, Z.eqb_refl. Qed.

Lemma find_index_after_misses {A} (g : A -> bool) (l1 l2 : list A) (x : A) :
  Forall (fun y => g y = false) l1 -> g x = true ->
  find_index g (l1 ++ x :: l2)%list = Some (List.length l1).
Proof.
  induction 1 as [|y l1 Hy _ IH]; simpl; intros Hx; [now rewrite Hx|].
  rewrite Hy, IH by exact Hx. reflexivity.
Qed.

Lemma splice_one_at {A} (l1 l2 : list A) (x : A) :
  splice_one (List.length l1) (l1 ++ x :: l2)%list = (l1 ++ l2)%list.
Proof.
  unfold splice_one. rewrite firstn_app, skipn_app, Nat.sub_diag, firstn_all, firstn_O.
  replace (S (List.length l1) - List.length l1) with 1 by lia.
  rewrite skipn_all2 by lia. simpl. now rewrite !app_nil_r.
Qed.

Lemma split_first {A} (g : A -> bool) (l : list A) (x : A) :
  In x l -> g x = true ->
  exists l1 y l2, l = (l1 ++ y :: l2)%list /\ g y = true /\ Forall (fun z => g z = false) l1.
Proof.
  induction l as [|a l IH]; simpl; intros Hin Hx; [contradiction|].
  destruct (g a) eqn:Ha.
  - exists [], a, l. split; [reflexivity|]. split; [exact Ha|constructor].
  - destruct Hin as [<-|Hin]; [congruence|].
    destruct (IH Hin Hx) as [l1 [y [l2 [-> [Hy Hl1]]]]].
    exists (a :: l1), y, l2. split; [reflexivity|]. split; [exact Hy|now constructor].
Qed.

Lemma rotate_times_snoc rot rnd n p :
  rotate_times rot rnd (S n) p
  = match rotate_times rot rnd n p with
    | Some p' => option_map snd (rotateProxy rot rnd p')
    | None => None
    end.
Proof.
  revert p. induction n as [|n IH]; intros p.
  - simpl. now destruct (rotateProxy rot rnd p) as [[v p']|].
  - change (rotate_times rot rnd (S (S n)) p)
      with (match rotateProxy rot rnd p with
            | Some (_, p') => rotate_times rot rnd (S n) p'
            | None => None end).
    simpl rotate_times at 2.
    destruct (rotateProxy rot rnd p) as [[v p']|]; [apply IH|reflexivity].
Qed.

(** After the first rotation the active proxy is a member of the list, or
    the list is empty and nothing is active. *)
Definition rot_inv (l : list proxy) (cur : current) : Prop :=
  (l = [] /\ cur = CUndefined) \/ (exists q, cur = CProxy q /\ In q l).

Section Rotation.

(** A rotation policy that picks a member of a non-empty list and returns
    [undefined] on an empty one. *)
Variable f : list proxy -> current -> current.
Hypothesis f_member : forall l c, l <> [] -> exists q, f l c = CProxy q /\ In q l.
Hypothesis f_empty : forall c, f [] c = CUndefined.

Lemma f_inv l c : rot_inv l (f l c).
Proof.
  destruct l as [|a l].
  - left. now rewrite f_empty.
  - right. apply f_member. discriminate.
Qed.

Lemma rotate_first l errs rnd :
  rotateProxy (Some f) rnd (mk_pool (PList l) CNull errs)
  = Some (resolve_value (f l CNull), mk_pool (PList l) (f l CNull) []).
Proof. unfold rotateProxy. simpl. now destruct l. Qed.

Lemma rotate_next l cur rnd :
  rot_inv l cur ->
  exists l', rotateProxy (Some f) rnd (mk_pool (PList l) cur [])
             = Some (resolve_value (f l' cur), mk_pool (PList l') (f l' cur) [])
    /\ List.length l' = List.length l - 1.
Proof.
  intros [[-> ->] | [q [-> Hin]]].
  - exists []. split; reflexivity.
  - destruct (find_index_exists (same_proxy q) l q Hin (same_proxy_refl q)) as [i [Hi Hlt]].
    exists (splice_one i l). split.
    + unfold rotateProxy, removeUnavailableProxy. cbn [proxy_list proxyCurrent].
      rewrite Hi. destruct l as [|a l']; [contradiction|]. reflexivity.
    + now apply splice_one_length.
Qed.

Lemma rotate_times_inv k l cur rnd :
  rot_inv l cur ->
  exists l' cur', rotate_times (Some f) rnd k (mk_pool (PList l) cur [])
                  = Some (mk_pool (PList l') cur' [])
    /\ List.length l' = List.length l - k /\ rot_inv l' cur'.
Proof.
  revert l cur. induction k as [|k IH]; intros l cur Hinv.
  - exists l, cur. split; [reflexivity|]. split; [lia|assumption].
  - destruct (rotate_next l cur rnd Hinv) as [l1 [Hr Hlen]].
    destruct (IH l1 (f l1 cur) (f_inv l1 cur)) as [l' [cur' [Ht [Hlen' Hinv']]]].
    exists l', cur'. simpl. rewrite Hr. split; [exact Ht|]. split; [lia|exact Hinv'].
Qed.

(** C4 (amended): with a rotation policy returning a member of the
    remaining list, [k+1] sequential rotations of a list of [N] proxies
    leave [N-k] of them (the first call removes nothing, no proxy being
    active yet); each later call evicts the previously active candidate:
    when [j+1] calls have left a non-empty list, the active proxy [q] is
    a member of it and call [j+2] removes the first entry with [q]'s host
    and port ([q] itself when no two entries share them), keeping the
    others in order; once the list is empty, a further rotation resolves
    to [undefined] and does not reject. *)
Theorem rotate_list_remaining l errs k rnd :
  (exists l' cur,
    rotate_times (Some f) rnd (S k) (mk_pool (PList l) CNull errs)
      = Some (mk_pool (PList l') cur [])
    /\ List.length l' = List.length l - k
    /\ (l' = [] -> exists p',
          rotateProxy (Some f) rnd (mk_pool (PList l') cur []) = Some (CUndefined, p')))
  /\ (forall j lj cj,
        rotate_times (Some f) rnd (S j) (mk_pool (PList l) CNull errs)
          = Some (mk_pool (PList lj) cj []) ->
        lj <> [] ->
        exists q l1 q' l2,
          cj = CProxy q /\ In q lj
          /\ lj = (l1 ++ q' :: l2)%list /\ same_proxy q q' = true
          /\ Forall (fun y => same_proxy q y = false) l1
          /\ rotate_times (Some f) rnd (S (S j)) (mk_pool (PList l) CNull errs)
             = Some (mk_pool (PList (l1 ++ l2)) (f (l1 ++ l2) cj) [])).
Proof.
  split.
  - destruct (rotate_times_inv k l (f l CNull) rnd (f_inv l CNull))
      as [l' [cur [Ht [Hlen Hinv]]]].
    exists l', cur. split; [simpl; rewrite rotate_first; exact Ht|]. split; [exact Hlen|].
    intros ->. destruct Hinv as [[_ ->] | [q [_ []]]].
    eexists. unfold rotateProxy. simpl. rewrite f_empty. reflexivity.
  - intros j lj cj Hj Hne.
    destruct (rotate_times_inv j l (f l CNull) rnd (f_inv l CNull))
      as [l'' [cur'' [Ht [_ Hinv]]]].
    assert (Hj' : rotate_times (Some f) rnd (S j) (mk_pool (PList l) CNull errs)
                  = Some (mk_pool (PList l'') cur'' []))
      by (simpl; rewrite rotate_first; exact Ht).
    rewrite Hj in Hj'. inversion Hj'; subst l'' cur''.
    destruct Hinv as [[Hl _] | [q [-> Hin]]]; [contradiction|].
    destruct (split_first (same_proxy q) lj q Hin (same_proxy_refl q))
      as [l1 [q' [l2 [Hl [Hq' Hl1]]]]].
    exists q, l1, q', l2. split; [reflexivity|]. split; [exact Hin|].
    split; [exact Hl|]. split; [exact Hq'|]. split; [exact Hl1|].
    rewrite rotate_times_snoc, Hj. subst lj.
    unfold rotateProxy, removeUnavailableProxy. cbn [proxy_list proxyCurrent].
    rewrite (find_index_after_misses _ _ _ _ Hl1 Hq'), splice_one_at.
    destruct l1; reflexivity.
Qed.

End Rotation.

Lemma head_rotator_member :
  forall l c, l <> [] -> exists q, head_rotator l c = CProxy q /\ In q l.
Proof. intros [|q l] c H; [congruence|]. exists q. split; [reflexivity|now left]. Qed.

Lemma head_rotator_empty : forall c, head_rotator [] c = CUndefined.
Proof. reflexivity. Qed.

(** C4 at [N = 2], two rotations with the head-taking policy: one proxy
    is left, and the second call evicts [p1], active after the first. *)
Lemma rotate_list_remaining_witness :
  (exists l' cur,
    rotate_times (Some head_rotator) 0 2 (mk_pool (PList [p1; p2]) CNull [])
      = Some (mk_pool (PList l') cur [])
    /\ List.length l' = 1
    /\ (l' = [] -> exists p',
          rotateProxy (Some head_rotator) 0 (mk_pool (PList l') cur []) = Some (CUndefined, p')))
  /\ exists q l1 q' l2,
       CProxy p1 = CProxy q /\ In q [p1; p2]
       /\ [p1; p2] = (l1 ++ q' :: l2)%list /\ same_proxy q q' = true
       /\ Forall (fun y => same_proxy q y = false) l1
       /\ rotate_times (Some head_rotator) 0 2 (mk_pool (PList [p1; p2]) CNull [])
          = Some (mk_pool (PList (l1 ++ l2)) (head_rotator (l1 ++ l2) (CProxy p1)) []).
Proof.
  destruct (rotate_list_remaining head_rotator head_rotator_member head_rotator_empty
              [p1; p2] [] 1 0) as [H1 H2].
  split; [exact H1|].
  apply (H2 0 [p1; p2] (CProxy p1)); [reflexivity|discriminate].
Defined.

(** C4 (counterexample): one rotation of a list of two proxies leaves both
    in the list, not [max(2-1, 0) = 1]: no proxy was active to evict. *)
Lemma rotate_first_call_removes_nothing :
  rotate_times (Some head_rotator) 0 1 (mk_pool (PList [p1; p2]) CNull [])
  = Some (mk_pool (PList [p1; p2]) (CProxy p1) []).
Proof. reflexivity. Qed.

(* ------------------------------------------------------------------ *)
(** ** Proxy pool: the error log *)

Lemma add_error_for_log m e e' :
  add_error_for m e = Some e' ->
  proxyErrors (env_pool e') = proxyErrors (env_pool e)
  \/ exists err, proxyErrors (env_pool e') = (proxyErrors (env_pool e) ++ [err])%list.
Proof.
  unfold add_error_for. destruct m as [i|].
  - destruct (createProxyError i) as [err|]; simpl; intros H; inversion H; subst.
    right. now exists err.
  - intros H. inversion H; subst. now left.
Qed.

(** C7 (counterexample): rotating a single fixed proxy makes it active
    ([null] before) and keeps the error log. *)
Lemma rotate_single_keeps_errors :
  rotateProxy None 0
    (mk_pool (PSingle p1) CNull [mk_error "Proxy matched redirect" "redirect" "high"])
  = Some (CProxy p1,
          mk_pool (PSingle p1) (CProxy p1) [mk_error "Proxy matched redirect" "redirect" "high"]).
Proof. reflexivity. Qed.

(** C7 (amended): on a proxy list every rotation that does not reject
    empties the error log; with a single proxy or no proxy a rotation keeps
    it; [addProxyError] and the indicator matcher ([response],
    [requestfailed]) append at most one error; [validateProxy] removes the
    last one; every other operation leaves the log unchanged. *)
Theorem proxy_error_log_frame sm o e e' :
  step sm o e = Some e' ->
  let E := proxyErrors (env_pool e) in
  let E' := proxyErrors (env_pool e') in
  match o with
  | OpRotateProxy _ =>
      match proxy_list (env_pool e) with PList _ => E' = [] | _ => E' = E end
  | OpValidateProxy => E' = removelast E
  | OpAddProxyError err => E' = (E ++ [err])%list
  | OpResponse _ | OpRequestFailed _ => E' = E \/ exists err, E' = (E ++ [err])%list
  | _ => E' = E
  end.
Proof.
  destruct o as [rnd| |err| |uri|w| |url|resp|rq]; simpl; intros H.
  - unfold rotateProxy in H.
    destruct (proxy_list (env_pool e)) as [|q|l]; simpl in H.
    + now inversion H.
    + now inversion H.
    + destruct (removeUnavailableProxy l (proxyCurrent (env_pool e))); inversion H; reflexivity.
  - inversion H; subst. simpl.
    assert (Hc : proxyErrors (env_pool e) = []
                 \/ exists l x, proxyErrors (env_pool e) = (l ++ [x])%list).
    { destruct (proxyErrors (env_pool e)) as [|a l]; [now left|right].
      destruct (exists_last (l := a :: l) ltac:(discriminate)) as [l' [x Hx]].
      now exists l', x. }
    destruct Hc as [Hn | [l [x Hx]]].
    + unfold validateProxy, getProxyErrors. rewrite Hn. simpl. now rewrite Hn.
    + rewrite (validateProxy_snoc _ l x Hx). simpl. now rewrite Hx, removelast_last.
  - now inversion H.
  - now inversion H.
  - now inversion H.
  - now inversion H.
  - now inversion H.
  - now inversion H.
  - unfold on_response in H.
    destruct (_ || _).
    + apply add_error_for_log in H.
      destruct (Js.truthy _ && _); exact H.
    + inversion H; subst. now left.
  - unfold on_requestfailed in H.
    destruct (rq_response rq) as [resp|].
    + destruct (add_error_for _ e) as [e1|] eqn:He1; [|discriminate].
      simpl in H. apply add_error_for_log in He1.
      destruct (String.eqb _ _); inversion H; subst; exact He1.
    + simpl in H. left.
      destruct (String.eqb _ _); inversion H; subst; reflexivity.
Qed.

(** A [responseCode]-free 302 response from the tracked URL under the
    match-all redirect indicator: one error is appended. *)
Lemma proxy_error_log_frame_witness :
  exists e', step Regex.str_match (OpResponse (mk_response 302 [] "http://a.com/"))
               (env0 [ind_any_redirect] PNull None) = Some e'
    /\ (proxyErrors (env_pool e') = []
        \/ exists err, proxyErrors (env_pool e') = ([] ++ [err])%list).
Proof.
  eexists. split; [reflexivity|].
  exact (proxy_error_log_frame Regex.str_match
           (OpResponse (mk_response 302 [] "http://a.com/"))
           (env0 [ind_any_redirect] PNull None) _ eq_refl).
Defined.

(* ------------------------------------------------------------------ *)
(** ** Waiter registry: request waiters *)




(** C2 (counterexample): two request waiters [0] and [1]; when [0] times
    out the collection is emptied, so [1] is no longer in it and a request
    matching its pattern no longer settles it. *)
Lemma request_timeout_drops_sibling :
  requestingActions (fire_timer 0 two_queries) = []
  /\ ~ In (mk_req_action "/other" 1) (requestingActions (fire_timer 0 two_queries))
  /\ is_settled 1 (on_request Regex.str_match "http://x/other" (fire_timer 0 two_queries))
     = false.
Proof. split; [reflexivity|]. split; [simpl; tauto|reflexivity]. Qed.

(** C2 (amended): when a request waiter's own timer fires it is rejected
    with the timeout error and the whole request-waiter collection is
    emptied; the other waiters are not settled by it and a later
    [request] event, whatever its URL, no longer settles them, but each
    keeps its timer and is still rejected with the timeout error when its
    own timer fires. *)
Theorem request_timeout_empties_collection sm r w :
  NoDup (map fst (timers r)) -> In (w, ReqTimer) (timers r) -> is_settled w r = false ->
  requestingActions (fire_timer w r) = []
  /\ navigationActions (fire_timer w r) = navigationActions r
  /\ settled (fire_timer w r) = (settled r ++ [(w, Rejected "Waiting request timeout")])%list
  /\ (forall w', w' <> w -> In (w', ReqTimer) (timers r) -> is_settled w' r = false ->
        is_settled w' (fire_timer w r) = false
        /\ (forall url, is_settled w' (on_request sm url (fire_timer w r)) = false)
        /\ In (w', ReqTimer) (timers (fire_timer w r))
        /\ settled (fire_timer w' (fire_timer w r))
           = (settled (fire_timer w r) ++ [(w', Rejected "Waiting request timeout")])%list).
Proof.
  intros Hnd Hin Hw. rewrite (fire_timer_req r w Hnd Hin).
  split; [|split; [|split]].
  - now rewrite settle_fields.
  - now rewrite settle_fields.
  - rewrite settle_fresh; [reflexivity|exact Hw].
  - intros w' Hne Hin' Hw'.
    assert (Hs : is_settled w' (settle w (Rejected "Waiting request timeout")
                                   (set_requesting [] (clearTimeout w r))) = false)
      by (rewrite is_settled_settle_other by exact Hne; exact Hw').
    assert (Ht : In (w', ReqTimer) (timers (settle w (Rejected "Waiting request timeout")
                                              (set_requesting [] (clearTimeout w r)))))
      by (rewrite timers_settle; now apply in_timers_clear).
    assert (Hq : requestingActions (settle w (Rejected "Waiting request timeout")
                                      (set_requesting [] (clearTimeout w r))) = [])
      by now rewrite settle_fields.
    split; [exact Hs|]. split; [|split; [exact Ht|]].
    + intros url. unfold on_request. rewrite Hq. exact Hs.
    + rewrite fire_timer_req; [rewrite settle_fresh; [reflexivity|exact Hs]| |exact Ht].
      rewrite timers_settle. now apply nodup_timers_clear.
Qed.

Lemma request_timeout_empties_collection_witness :
  requestingActions (fire_timer 0 two_queries) = []
  /\ is_settled 1 (on_request Regex.str_match "http://x/other" (fire_timer 0 two_queries)) = false
  /\ settled (fire_timer 1 (fire_timer 0 two_queries))
     = [(0, Rejected "Waiting request timeout"); (1, Rejected "Waiting request timeout")].
Proof.
  destruct (request_timeout_empties_collection Regex.str_match two_queries 0)
    as [H1 [_ [H3 H4]]].
  - repeat constructor; simpl; intuition discriminate.
  - simpl; tauto.
  - reflexivity.
  - destruct (H4 1) as [_ [Hr [_ H]]]; [discriminate|simpl; tauto|reflexivity|].
    split; [exact H1|]. split; [exact (Hr "http://x/other")|].
    rewrite H, H3. reflexivity.
Defined.

(* ------------------------------------------------------------------ *)
(** ** Waiter registry: navigation waiters *)

(** C6 (counterexample): two navigation waiters; after [0] times out and
    the queue is cleared, [1] is not left unsettled for ever: its own timer
    still fires and rejects it. *)
Lemma navigation_timeout_sibling_still_times_out :
  navigationActions (fire_timer 0 two_pages) = []
  /\ settled (fire_timer 1 (fire_timer 0 two_pages))
     = [(0, Rejected "Page navigation timeout"); (1, Rejected "Page navigation timeout")].
Proof. split; reflexivity. Qed.

(** C6 (amended): when a navigation waiter's own timer fires it is
    rejected with the timeout error and the whole navigation queue is
    cleared; the other waiters pending then are not settled by it and a
    later [load] or [requestfailed] drain of the queue no longer settles
    them, but each keeps its timer and is
    rejected with the timeout error when that timer fires. *)
Theorem navigation_timeout_clears_queue r w :
  NoDup (map fst (timers r)) -> In (w, NavTimer) (timers r) -> is_settled w r = false ->
  navigationActions (fire_timer w r) = []
  /\ requestingActions (fire_timer w r) = requestingActions r
  /\ settled (fire_timer w r) = (settled r ++ [(w, Rejected "Page navigation timeout")])%list
  /\ (forall w', w' <> w -> In (w', NavTimer) (timers r) -> is_settled w' r = false ->
        is_settled w' (fire_timer w r) = false
        /\ (forall o, is_settled w' (drain_navigation o (fire_timer w r)) = false)
        /\ In (w', NavTimer) (timers (fire_timer w r))
        /\ settled (fire_timer w' (fire_timer w r))
           = (settled (fire_timer w r) ++ [(w', Rejected "Page navigation timeout")])%list).
Proof.
  intros Hnd Hin Hw. rewrite (fire_timer_nav r w Hnd Hin).
  split; [|split; [|split]].
  - now rewrite settle_fields.
  - now rewrite settle_fields.
  - rewrite settle_fresh; [reflexivity|exact Hw].
  - intros w' Hne Hin' Hw'.
    set (r' := settle w (Rejected "Page navigation timeout")
                 (set_navigation [] (clearTimeout w r))).
    assert (Hs : is_settled w' r' = false)
      by (unfold r'; rewrite is_settled_settle_other by exact Hne; exact Hw').
    assert (Ht : In (w', NavTimer) (timers r'))
      by (unfold r'; rewrite timers_settle; now apply in_timers_clear).
    assert (Hq : navigationActions r' = []) by (unfold r'; now rewrite settle_fields).
    split; [exact Hs|]. split; [|split; [exact Ht|]].
    + intros o. unfold drain_navigation. rewrite Hq. exact Hs.
    + rewrite fire_timer_nav; [rewrite settle_fresh; [reflexivity|exact Hs]| |exact Ht].
      unfold r'. rewrite timers_settle. now apply nodup_timers_clear.
Qed.

Lemma navigation_timeout_clears_queue_witness :
  navigationActions (fire_timer 0 two_pages) = []
  /\ settled (fire_timer 1 (fire_timer 0 two_pages))
     = [(0, Rejected "Page navigation timeout"); (1, Rejected "Page navigation timeout")].
Proof.
  destruct (navigation_timeout_clears_queue two_pages 0) as [H1 [_ [H3 H4]]].
  - repeat constructor; simpl; intuition discriminate.
  - simpl; tauto.
  - reflexivity.
  - split; [exact H1|].
    destruct (H4 1) as [_ [_ [_ H]]]; [discriminate|simpl; tauto|reflexivity|].
    rewrite H, H3. reflexivity.
Defined.

(* ------------------------------------------------------------------ *)
(** ** Further properties: redirect URLs *)

Lemma find_after_misses {A} (g : A -> bool) (l1 l2 : list A) (x : A) :
  Forall (fun y => g y = false) l1 -> g x = true -> find g (l1 ++ x :: l2)%list = Some x.
Proof.
  induction 1 as [|y l1 Hy _ IH]; simpl; intros Hx; [now rewrite Hx|].
  rewrite Hy. now apply IH.
Qed.

Lemma to_lower_empty : Url.str (Js.to_lower (Url.chars "")) = "".
Proof. reflexivity. Qed.

(** The [location] header is found whatever the case of its name: the
    first header whose lower-cased name is [location] decides, an empty
    value giving [''] even when a later header would match. *)
Theorem extractRedirectUrl_first_location url hs1 k v hs2 :
  Forall (fun kv => Url.str (Js.to_lower (Url.chars (fst kv))) <> "location") hs1 ->
  Url.str (Js.to_lower (Url.chars k)) = "location" ->
  extractRedirectUrl url (hs1 ++ (k, v) :: hs2)%list
  = if String.eqb v "" then "" else getRedirectUrl url v.
Proof.
  intros H1 Hk. unfold extractRedirectUrl.
  rewrite find_after_misses.
  - assert (Hk' : String.eqb k "" = false).
    { apply String.eqb_neq. intros ->. rewrite to_lower_empty in Hk. discriminate. }
    unfold Js.truthy. rewrite Hk'. now destruct (String.eqb v "").
  - eapply Forall_impl; [|exact H1]. intros [k' v'] H. simpl in H. now apply String.eqb_neq.
  - simpl. now apply String.eqb_eq.
Qed.

Lemma extractRedirectUrl_first_location_witness :
  extractRedirectUrl "http://a.com/" [("content-type", "text/html"); ("LOCATION", "/next")]
  = "http://a.com/next"
  /\ extractRedirectUrl "http://a.com/" [("Location", ""); ("location", "/next")] = "".
Proof.
  split.
  - refine (eq_trans (extractRedirectUrl_first_location "http://a.com/"
                         [("content-type", "text/html")] "LOCATION" "/next" [] _ eq_refl) _).
    + repeat constructor. simpl. discriminate.
    + reflexivity.
  - exact (extractRedirectUrl_first_location "http://a.com/" [] "Location" ""
             [("location", "/next")] (Forall_nil _) eq_refl).
Defined.

(* ------------------------------------------------------------------ *)
(** ** Further properties: proxy pool *)

Lemma find_index_misses {A} (g : A -> bool) (l : list A) :
  Forall (fun y => g y = false) l -> find_index g l = None.
Proof. induction 1 as [|y l Hy _ IH]; simpl; [reflexivity|]. now rewrite Hy, IH. Qed.

(** [_removeUnavailableProxy] with an active proxy removes only the first
    entry with the same host and port (a later duplicate stays), keeps the
    others in order, and returns a list without such an entry unchanged;
    with [undefined] active and a non-empty list it throws. *)
Theorem removeUnavailableProxy_first_match c l1 x l2 l q :
  (Forall (fun y => same_proxy c y = false) l1 -> same_proxy c x = true ->
   removeUnavailableProxy (l1 ++ x :: l2)%list (CProxy c) = Some (l1 ++ l2)%list)
  /\ (Forall (fun y => same_proxy c y = false) l ->
      removeUnavailableProxy l (CProxy c) = Some l)
  /\ removeUnavailableProxy (q :: l) CUndefined = None.
Proof.
  split; [|split].
  - intros H1 Hx. unfold removeUnavailableProxy.
    rewrite (find_index_after_misses _ _ _ _ H1 Hx), splice_one_at.
    now destruct l1.
  - intros H. unfold removeUnavailableProxy. rewrite (find_index_misses _ _ H).
    now destruct l.
  - reflexivity.
Qed.

Lemma removeUnavailableProxy_first_match_witness :
  removeUnavailableProxy [p2; p1; p1] (CProxy p1) = Some [p2; p1]
  /\ removeUnavailableProxy [p2] (CProxy p1) = Some [p2].
Proof.
  destruct (removeUnavailableProxy_first_match p1 [p2] p1 [p1] [p2] p1) as [H1 [H2 _]].
  split.
  - apply H1; [repeat constructor|reflexivity].
  - apply H2. repeat constructor.
Defined.

Lemma sample_member rnd l :
  match sample rnd l with
  | CProxy q => In q l
  | CUndefined => l = []
  | _ => False
  end.
Proof.
  unfold sample. destruct (nth_error l (Nat.modulo rnd (List.length l))) as [q|] eqn:H.
  - exact (nth_error_In _ _ H).
  - apply nth_error_None in H. destruct l as [|a l]; [reflexivity|].
    pose proof (Nat.mod_upper_bound rnd (List.length (a :: l))). simpl in *. lia.
Qed.

(** Without a rotation policy, [this._proxyCurrent] becomes the promise
    [Promise.resolve(sample(proxy))]: it never matches a list entry, so no
    sequence of rotations removes a proxy from the list; every call
    resolves to a member of it ([undefined] only for an empty list). *)
Theorem default_rotation_never_evicts l errs rnds :
  exists vs p',
    rotate_draws None rnds (mk_pool (PList l) CNull errs) = Some (vs, p')
    /\ proxy_list p' = PList l
    /\ List.length vs = List.length rnds
    /\ Forall (fun v => match v with
                        | CProxy q => In q l
                        | CUndefined => l = []
                        | _ => False
                        end) vs.
Proof.
  assert (Hgen : forall cur errs,
             match cur with CNull | CPromise _ => True | _ => False end ->
             exists vs p',
               rotate_draws None rnds (mk_pool (PList l) cur errs) = Some (vs, p')
               /\ proxy_list p' = PList l
               /\ List.length vs = List.length rnds
               /\ Forall (fun v => match v with
                                   | CProxy q => In q l
                                   | CUndefined => l = []
                                   | _ => False
                                   end) vs).
  { induction rnds as [|rnd rnds IH]; intros cur errs' Hcur.
    - exists [], (mk_pool (PList l) cur errs'). repeat split. constructor.
    - assert (Hrm : removeUnavailableProxy l cur = Some l).
      { unfold removeUnavailableProxy. destruct l; [reflexivity|].
        destruct cur; [reflexivity|contradiction|contradiction|reflexivity]. }
      destruct (IH (CPromise (sample rnd l)) [] I) as [vs [p' [Hd [Hl [Hn Hf]]]]].
      assert (Hv : resolve_value (sample rnd l) = sample rnd l)
        by (unfold sample; now destruct (nth_error _ _)).
      exists (sample rnd l :: vs), p'. cbn [rotate_draws]. unfold rotateProxy.
      cbn [proxy_list proxyCurrent]. rewrite Hrm. cbn [resolve_value]. rewrite Hv, Hd.
      simpl.
      split; [reflexivity|]. split; [exact Hl|]. split; [now rewrite Hn|].
      constructor; [|exact Hf].
      pose proof (sample_member rnd l) as Hs. destruct (sample rnd l); exact Hs. }
  exact (Hgen CNull errs I).
Qed.

(** With no proxy, every rotation resolves to [null]; with a single fixed
    proxy, every rotation resolves to it and makes it active.  Neither
    rejects, and the error log is kept. *)
Theorem fixed_proxy_rotation_stable rot q cur errs rnds :
  rotate_draws rot rnds (mk_pool PNull cur errs)
    = Some (repeat CNull (List.length rnds), mk_pool PNull cur errs)
  /\ rotate_draws rot rnds (mk_pool (PSingle q) cur errs)
    = Some (repeat (CProxy q) (List.length rnds),
            mk_pool (PSingle q) (match rnds with [] => cur | _ => CProxy q end) errs).
Proof.
  split.
  - induction rnds as [|rnd rnds IH]; [reflexivity|]. simpl. now rewrite IH.
  - revert cur. induction rnds as [|rnd rnds IH]; intros cur; [reflexivity|].
    simpl. rewrite IH. now destruct rnds.
Qed.

(* ------------------------------------------------------------------ *)
(** ** Further properties: [evaluateJs] and [tearDown] *)

(** [evaluateJs] throws when its last argument is missing or not a
    function; otherwise [page.evaluate] receives that function followed
    by the other arguments in order. *)
Theorem evaluateJs_function_first args x :
  evaluateJs [] = None
  /\ evaluateJs (args ++ [x])%list
     = match x with JFun f => Some (JFun f :: args) | _ => None end.
Proof. unfold evaluateJs. rewrite pop_snoc. split; [reflexivity|now destruct x]. Qed.

(** [tearDown] closes a live browser once: the page (if any) then the
    browser, after which both fields are gone and a second [tearDown] does
    nothing; a browser without a process is left untouched. *)
Theorem tearDown_closes_once s :
  tearDown (tearDown s) = tearDown s
  /\ match sess_browser s with
     | Some (Some _) =>
         sess_browser (tearDown s) = None /\ sess_page (tearDown s) = false
         /\ close_calls (tearDown s)
            = (close_calls s ++ (if sess_page s then ["page.close"] else [])
               ++ ["browser.close"])%list
     | _ => tearDown s = s
     end.
Proof.
  destruct s as [[[pid|]|] pg calls]; unfold tearDown; simpl; [|now split|now split].
  split; [reflexivity|]. split; [reflexivity|]. split; [reflexivity|].
  destruct pg; simpl; [now rewrite <- app_assoc|reflexivity].
Qed.

(* ------------------------------------------------------------------ *)
(** ** Further properties: the redirect chain *)

(** [hasRedirect] is false on an empty chain whatever the pattern, stays
    true as the chain grows, and is true once an entry matching the
    pattern has been recorded (any entry when there is no pattern). *)
Theorem hasRedirect_chain sm pat chain more u :
  hasRedirect sm pat [] = false
  /\ (hasRedirect sm pat chain = true -> hasRedirect sm pat (chain ++ more)%list = true)
  /\ (sm u (Js.show_or_empty pat) = true -> hasRedirect sm pat (chain ++ [u])%list = true).
Proof.
  unfold hasRedirect. destruct (Js.truthy pat); simpl; (split; [reflexivity|]).
  - split.
    + intros H. rewrite existsb_app, H. reflexivity.
    + intros H. rewrite existsb_app. simpl. rewrite H. apply orb_true_r.
  - split; intros H; apply Nat.ltb_lt; rewrite length_app; simpl.
    + apply Nat.ltb_lt in H. lia.
    + lia.
Qed.

Lemma hasRedirect_chain_witness :
  hasRedirect Regex.str_match (Some "next") ["http://a.com/next"] = true
  /\ hasRedirect Regex.str_match None ["http://a.com/next"; "http://a.com/final"] = true.
Proof.
  destruct (hasRedirect_chain Regex.str_match (Some "next") [] ["http://a.com/final"]
              "http://a.com/next") as [_ [_ H3]].
  destruct (hasRedirect_chain Regex.str_match None ["http://a.com/next"] ["http://a.com/final"]
              "http://a.com/next") as [_ [H2 _]].
  split; [exact (H3 eq_refl)|exact (H2 eq_refl)].
Defined.

(* ------------------------------------------------------------------ *)
(** ** Further properties: the indicator matcher *)

Lemma find_indicator_type (g : proxy_indicator -> bool) c ty m :
  find g (getProxyIndicators c ty) = Some m -> ind_type m = ty.
Proof.
  intros H. apply find_some in H as [Hin _].
  apply filter_In in Hin as [_ Hty]. now apply String.eqb_eq.
Qed.

Lemma add_error_for_typed matched e ty :
  (ty = "redirect" \/ ty = "responseCode") ->
  match matched with Some m => ind_type m = ty | None => True end ->
  exists e1, add_error_for matched e = Some e1
    /\ cfg e1 = cfg e /\ redirectUrls e1 = redirectUrls e /\ env_reg e1 = env_reg e
    /\ proxy_list (env_pool e1) = proxy_list (env_pool e)
    /\ proxyCurrent (env_pool e1) = proxyCurrent (env_pool e)
    /\ exists l, proxyErrors (env_pool e1) = (proxyErrors (env_pool e) ++ l)%list
                 /\ Forall (fun err => proxyIndicator err = ty) l.
Proof.
  intros Hty Hm. destruct matched as [m|].
  - assert (Hc : createProxyError m
                 = Some (mk_error (if String.eqb ty "redirect" then "Proxy matched redirect"
                                   else "Proxy matched response code")
                           ty (Js.show (Js.or_else (ind_level m) (Some "medium"))))).
    { unfold createProxyError. rewrite Hm. destruct Hty as [-> | ->]; reflexivity. }
    unfold add_error_for. rewrite Hc. eexists. split; [reflexivity|].
    repeat split. eexists. split; [reflexivity|]. repeat constructor.
  - exists e. split; [reflexivity|]. repeat split.
    exists []. split; [now rewrite app_nil_r|constructor].
Qed.

(** The indicator matcher only looks up indicators of its own type, so it
    never raises [Unsupported proxyIndicator]: [requestfailed] never
    throws, nor does [response] with patterns that compile.  Neither
    touches the proxy list, the active proxy or the options; [response]
    leaves the waiters alone and [requestfailed] the redirect chain. *)
Theorem matcher_never_throws sm e resp rq :
  (exists e', on_response sm resp e = Some e'
     /\ proxy_list (env_pool e') = proxy_list (env_pool e)
     /\ proxyCurrent (env_pool e') = proxyCurrent (env_pool e)
     /\ cfg e' = cfg e /\ env_reg e' = env_reg e)
  /\ (exists e', on_requestfailed rq e = Some e'
     /\ proxy_list (env_pool e') = proxy_list (env_pool e)
     /\ proxyCurrent (env_pool e') = proxyCurrent (env_pool e)
     /\ cfg e' = cfg e /\ redirectUrls e' = redirectUrls e).
Proof.
  split.
  - unfold on_response.
    destruct (Z.eqb (resp_status resp) 302 || Z.eqb (resp_status resp) 301).
    2:{ exists e. now repeat split. }
    match goal with |- exists e', add_error_for ?m ?e1 = Some e' /\ _ =>
      destruct (add_error_for_typed m e1 "redirect") as
          [e' [He [Hc [_ [Hr [Hl [Hp _]]]]]]] end.
    + now left.
    + match goal with |- match ?f with _ => _ end => destruct f eqn:Hf end; [|exact I].
      exact (find_indicator_type _ _ _ _ Hf).
    + exists e'. rewrite He, Hc, Hr, Hl, Hp.
      destruct (_ && _); simpl; now repeat split.
  - unfold on_requestfailed.
    assert (H : exists e1,
               match rq_response rq with
               | Some resp =>
                   add_error_for
                     (find (fun item => strict_eq (ind_code item) (status_property resp))
                           (getProxyIndicators (cfg e) "responseCode")) e
               | None => Some e
               end = Some e1
               /\ proxy_list (env_pool e1) = proxy_list (env_pool e)
               /\ proxyCurrent (env_pool e1) = proxyCurrent (env_pool e)
               /\ cfg e1 = cfg e /\ redirectUrls e1 = redirectUrls e).
    { destruct (rq_response rq) as [resp'|]; [|exists e; now repeat split].
      match goal with |- exists e1, add_error_for ?m ?e0 = Some e1 /\ _ =>
        destruct (add_error_for_typed m e0 "responseCode") as
            [e1 [He [Hc [Hr [_ [Hl [Hp _]]]]]]] end.
      - now right.
      - match goal with |- match ?f with _ => _ end => destruct f eqn:Hf end; [|exact I].
        exact (find_indicator_type _ _ _ _ Hf).
      - exists e1. now repeat split. }
    destruct H as [e1 [He [Hl [Hp [Hc Hr]]]]]. rewrite He. simpl.
    destruct (String.eqb (rq_url rq) (env_url (cfg e))); [|now exists e1].
    eexists. split; [reflexivity|]. simpl. now repeat split.
Qed.

(** The errors the indicator matcher records carry its own indicator
    type: [redirect] for [response], [responseCode] for [requestfailed];
    it never records a [captcha] error. *)
Theorem matcher_error_types sm e resp rq :
  (exists e' l, on_response sm resp e = Some e'
     /\ proxyErrors (env_pool e') = (proxyErrors (env_pool e) ++ l)%list
     /\ Forall (fun err => proxyIndicator err = "redirect") l)
  /\ (exists e' l, on_requestfailed rq e = Some e'
     /\ proxyErrors (env_pool e') = (proxyErrors (env_pool e) ++ l)%list
     /\ Forall (fun err => proxyIndicator err = "responseCode") l).
Proof.
  split.
  - unfold on_response.
    destruct (Z.eqb (resp_status resp) 302 || Z.eqb (resp_status resp) 301).
    2:{ exists e, []. split; [reflexivity|]. split; [now rewrite app_nil_r|constructor]. }
    match goal with |- exists e' l, add_error_for ?m ?e1 = Some e' /\ _ =>
      destruct (add_error_for_typed m e1 "redirect") as
          [e' [He [_ [_ [_ [_ [_ [l [Hl Hf]]]]]]]]] end.
    + now left.
    + match goal with |- match ?f with _ => _ end => destruct f eqn:Hf end; [|exact I].
      exact (find_indicator_type _ _ _ _ Hf).
    + exists e', l. rewrite He, Hl. split; [reflexivity|]. split; [|exact Hf].
      now destruct (_ && _).
  - unfold on_requestfailed.
    assert (H : exists e1 l,
               match rq_response rq with
               | Some resp =>
                   add_error_for
                     (find (fun item => strict_eq (ind_code item) (status_property resp))
                           (getProxyIndicators (cfg e) "responseCode")) e
               | None => Some e
               end = Some e1
               /\ proxyErrors (env_pool e1) = (proxyErrors (env_pool e) ++ l)%list
               /\ Forall (fun err => proxyIndicator err = "responseCode") l).
    { destruct (rq_response rq) as [resp'|].
      2:{ exists e, []. split; [reflexivity|]. split; [now rewrite app_nil_r|constructor]. }
      match goal with |- exists e1 l, add_error_for ?m ?e0 = Some e1 /\ _ =>
        destruct (add_error_for_typed m e0 "responseCode") as
            [e1 [He [_ [_ [_ [_ [_ [l [Hl Hf]]]]]]]]] end.
      - now right.
      - match goal with |- match ?f with _ => _ end => destruct f eqn:Hf end; [|exact I].
        exact (find_indicator_type _ _ _ _ Hf).
      - exists e1, l. now repeat split. }
    destruct H as [e1 [l [He [Hl Hf]]]]. rewrite He. simpl.
    destruct (String.eqb (rq_url rq) (env_url (cfg e))); [|now exists e1, l].
    eexists. exists l. split; [reflexivity|]. simpl. split; [exact Hl|exact Hf].
Qed.

Lemma requestfailed_shape rq e :
  exists e1,
    on_requestfailed rq e
    = Some (if String.eqb (rq_url rq) (env_url (cfg e))
            then set_reg (drain_navigation (Rejected "Page is not loaded") (env_reg e)) e1
            else e1)
    /\ cfg e1 = cfg e /\ redirectUrls e1 = redirectUrls e /\ env_reg e1 = env_reg e.
Proof.
  unfold on_requestfailed.
  destruct (rq_response rq) as [resp|].
  - match goal with |- exists e1, option_map _ (add_error_for ?m ?e0) = _ /\ _ =>
      destruct (add_error_for_typed m e0 "responseCode") as [e1 [He [Hc [Hr [Hg _]]]]] end.
    + now right.
    + match goal with |- match ?f with _ => _ end => destruct f eqn:Hf end; [|exact I].
      exact (find_indicator_type _ _ _ _ Hf).
    + exists e1. rewrite He. simpl. rewrite Hg. now repeat split.
  - exists e. now repeat split.
Qed.

Lemma redirect_chain_frame sm o e e' :
  step sm o e = Some e' ->
  redirectUrls e' = redirectUrls e
  \/ exists resp,
       o = OpResponse resp
       /\ (resp_status resp = 302%Z \/ resp_status resp = 301%Z)
       /\ extractRedirectUrl (resp_request_url resp) (resp_headers resp) <> ""
       /\ (resp_request_url resp = env_url (cfg e)
           \/ last_opt (redirectUrls e) = Some (resp_request_url resp))
       /\ redirectUrls e'
          = (redirectUrls e
             ++ [extractRedirectUrl (resp_request_url resp) (resp_headers resp)])%list.
Proof.
  intros Hs. destruct o as [rnd| |err| |uri|w| |url|resp|rq]; simpl in Hs.
  - destruct (rotateProxy _ _ _) as [[v p]|]; simpl in Hs; inversion Hs; subst. now left.
  - inversion Hs; subst. now left.
  - inversion Hs; subst. now left.
  - inversion Hs; subst. now left.
  - inversion Hs; subst. now left.
  - inversion Hs; subst. now left.
  - inversion Hs; subst. now left.
  - inversion Hs; subst. now left.
  - unfold on_response in Hs.
    destruct (Z.eqb_spec (resp_status resp) 302) as [H302|H302];
    [|destruct (Z.eqb_spec (resp_status resp) 301) as [H301|H301]]; simpl in Hs;
      [| |inversion Hs; subst; now left].
    all: set (u := extractRedirectUrl (resp_request_url resp) (resp_headers resp)) in Hs.
    all: match type of Hs with add_error_for ?m ?e1 = Some _ =>
           destruct (add_error_for_typed m e1 "redirect") as
               [e2 [He2 [_ [Hr _]]]] end;
         [now left
         | match goal with |- match ?f with _ => _ end => destruct f eqn:Hf end;
           [exact (find_indicator_type _ _ _ _ Hf)|exact I]
         |].
    all: rewrite He2 in Hs; inversion Hs; subst e2.
    all: destruct (String.eqb u "") eqn:Hu; cbn [negb andb] in Hr; [rewrite Hr; now left|].
    all: apply String.eqb_neq in Hu.
    all: destruct (String.eqb_spec (resp_request_url resp) (env_url (cfg e))) as [Hurl|Hurl];
         cbn [orb] in Hr.
    all: try (right; exists resp; rewrite Hr; split; [reflexivity|];
              split; [auto|]; split; [exact Hu|]; split; [now left|reflexivity]).
    all: destruct (last_opt (redirectUrls e)) as [v|] eqn:Hlast; [|rewrite Hr; now left].
    all: destruct (String.eqb_spec (resp_request_url resp) v) as [Hv|Hv];
         [|rewrite Hr; now left].
    all: right; exists resp; rewrite Hr; split; [reflexivity|]; split; [auto|];
         split; [exact Hu|]; split; [right; now rewrite Hv|reflexivity].
  - destruct (requestfailed_shape rq e) as [e1 [He1 [_ [Hr _]]]].
    rewrite He1 in Hs. inversion Hs; subst. left.
    destruct (String.eqb _ _); exact Hr.
Qed.

(** The redirect chain changes only in the [response] handler, and only
    by an append: a 301 or 302 response whose [Location] gives a non-empty
    target and whose request URL is the tracked URL or the chain's last
    entry appends that target, and such a response always does; every
    other operation and every other response leaves the chain unchanged. *)
Theorem redirect_chain_growth sm e :
  (forall o e', step sm o e = Some e' ->
     redirectUrls e' = redirectUrls e
     \/ exists resp,
          o = OpResponse resp
          /\ (resp_status resp = 302%Z \/ resp_status resp = 301%Z)
          /\ extractRedirectUrl (resp_request_url resp) (resp_headers resp) <> ""
          /\ (resp_request_url resp = env_url (cfg e)
              \/ last_opt (redirectUrls e) = Some (resp_request_url resp))
          /\ redirectUrls e'
             = (redirectUrls e
                ++ [extractRedirectUrl (resp_request_url resp) (resp_headers resp)])%list)
  /\ (forall resp,
        (resp_status resp = 302%Z \/ resp_status resp = 301%Z) ->
        extractRedirectUrl (resp_request_url resp) (resp_headers resp) <> "" ->
        (resp_request_url resp = env_url (cfg e)
         \/ last_opt (redirectUrls e) = Some (resp_request_url resp)) ->
        exists e', step sm (OpResponse resp) e = Some e'
          /\ redirectUrls e'
             = (redirectUrls e
                ++ [extractRedirectUrl (resp_request_url resp) (resp_headers resp)])%list).
Proof.
  split; [intros o e'; exact (redirect_chain_frame sm o e e')|].
  intros resp Hst Hu Hsrc. unfold step, on_response. cbv zeta.
  assert (Hb : (Z.eqb (resp_status resp) 302 || Z.eqb (resp_status resp) 301) = true)
    by (destruct Hst as [-> | ->]; reflexivity).
  rewrite Hb.
  set (u := extractRedirectUrl (resp_request_url resp) (resp_headers resp)) in *.
  assert (Hc : (Js.truthy (Some u)
                && (String.eqb (resp_request_url resp) (env_url (cfg e))
                    || match last_opt (redirectUrls e) with
                       | Some v => String.eqb (resp_request_url resp) v
                       | None => false
                       end)) = true).
  { unfold Js.truthy. rewrite (proj2 (String.eqb_neq _ _) Hu). simpl.
    destruct Hsrc as [H|H].
    - now rewrite (proj2 (String.eqb_eq _ _) H).
    - rewrite H, String.eqb_refl. apply orb_true_r. }
  rewrite Hc.
  match goal with |- exists e', add_error_for ?m ?e1 = Some e' /\ _ =>
    destruct (add_error_for_typed m e1 "redirect") as [e2 [He [_ [Hr _]]]] end.
  - now left.
  - match goal with |- match ?f with _ => _ end => destruct f eqn:Hf end; [|exact I].
    exact (find_indicator_type _ _ _ _ Hf).
  - exists e2. rewrite He, Hr. split; reflexivity.
Qed.

Lemma redirect_chain_growth_witness :
  exists e', step Regex.str_match
               (OpResponse (mk_response 301 [("Location", "/next")] "http://a.com/"))
               (env0 [] PNull None) = Some e'
    /\ redirectUrls e' = ["http://a.com/next"].
Proof.
  apply (proj2 (redirect_chain_growth Regex.str_match (env0 [] PNull None))).
  - now right.
  - discriminate.
  - now left.
Defined.

(* ------------------------------------------------------------------ *)
(** ** Further properties: the waiter registry *)

Lemma callback_queues w o r :
  navigationActions (callback w o r) = navigationActions r
  /\ requestingActions (callback w o r) = requestingActions r
  /\ next_waiter (callback w o r) = next_waiter r.
Proof. unfold callback. rewrite settle_fields. now repeat split. Qed.

Lemma callbacks_queues o ws r :
  navigationActions (fold_left (fun r w => callback w o r) ws r) = navigationActions r
  /\ requestingActions (fold_left (fun r w => callback w o r) ws r) = requestingActions r
  /\ next_waiter (fold_left (fun r w => callback w o r) ws r) = next_waiter r.
Proof.
  revert r. induction ws as [|w ws IH]; intros r; [now repeat split|]. simpl.
  destruct (IH (callback w o r)) as [H1 [H2 H3]].
  destruct (callback_queues w o r) as [K1 [K2 K3]].
  rewrite H1, H2, H3, K1, K2, K3. now repeat split.
Qed.

Lemma set_navigation_nil r : navigationActions r = [] -> set_navigation [] r = r.
Proof. destruct r; simpl. now intros ->. Qed.

(** The [load] event resolves every queued navigation waiter, in the order
    they were queued, and empties the queue; request waiters are left
    alone, and a second [load] does nothing. *)
Theorem load_resolves_navigation r :
  NoDup (navigationActions r) ->
  Forall (fun w => is_settled w r = false) (navigationActions r) ->
  navigationActions (on_load r) = []
  /\ requestingActions (on_load r) = requestingActions r
  /\ settled (on_load r) = (settled r ++ map (fun w => (w, Resolved None)) (navigationActions r))%list
  /\ on_load (on_load r) = on_load r.
Proof.
  intros Hnd Hall.
  destruct (callbacks_queues (Resolved None) (navigationActions r) (set_navigation [] r))
    as [H1 [H2 _]].
  unfold on_load, drain_navigation in *. rewrite H1, H2.
  split; [reflexivity|]. split; [reflexivity|]. split.
  - rewrite settled_callbacks; [reflexivity|exact Hnd|exact Hall].
  - set (r' := fold_left (fun r w => callback w (Resolved None) r)
                  (navigationActions r) (set_navigation [] r)) in *.
    assert (Hq : navigationActions r' = []) by exact H1.
    change (navigationActions (set_navigation [] r)) with (@nil nat). simpl.
    now apply set_navigation_nil.
Qed.

Lemma load_resolves_navigation_witness :
  settled (on_load two_pages) = [(0, Resolved None); (1, Resolved None)]
  /\ navigationActions (on_load two_pages) = [].
Proof.
  destruct (load_resolves_navigation two_pages) as [H1 [_ [H3 _]]].
  - repeat constructor; simpl; intuition discriminate.
  - repeat constructor.
  - split; [exact H3|exact H1].
Defined.

(** A failed request for the tracked URL rejects every queued navigation
    waiter with [Page is not loaded], in order, and empties the queue; a
    failed request for any other URL leaves the waiters alone. *)
Theorem requestfailed_rejects_navigation rq e :
  NoDup (navigationActions (env_reg e)) ->
  Forall (fun w => is_settled w (env_reg e) = false) (navigationActions (env_reg e)) ->
  exists e', on_requestfailed rq e = Some e'
    /\ if String.eqb (rq_url rq) (env_url (cfg e))
       then navigationActions (env_reg e') = []
            /\ requestingActions (env_reg e') = requestingActions (env_reg e)
            /\ settled (env_reg e')
               = (settled (env_reg e)
                  ++ map (fun w => (w, Rejected "Page is not loaded"))
                         (navigationActions (env_reg e)))%list
       else env_reg e' = env_reg e.
Proof.
  intros Hnd Hall. destruct (requestfailed_shape rq e) as [e1 [He [_ [_ Hr]]]].
  eexists. split; [exact He|].
  destruct (String.eqb (rq_url rq) (env_url (cfg e))); [|exact Hr].
  simpl. unfold drain_navigation.
  destruct (callbacks_queues (Rejected "Page is not loaded") (navigationActions (env_reg e))
              (set_navigation [] (env_reg e))) as [H1 [H2 _]].
  rewrite H1, H2. split; [reflexivity|]. split; [reflexivity|].
  rewrite settled_callbacks; [reflexivity|exact Hnd|exact Hall].
Qed.

Lemma requestfailed_rejects_navigation_witness :
  exists e', on_requestfailed (mk_request "http://a.com/" None)
               (set_reg two_pages (env0 [] PNull None)) = Some e'
    /\ settled (env_reg e')
       = [(0, Rejected "Page is not loaded"); (1, Rejected "Page is not loaded")].
Proof.
  destruct (requestfailed_rejects_navigation (mk_request "http://a.com/" None)
              (set_reg two_pages (env0 [] PNull None))) as [e' [He [_ [_ H]]]].
  - repeat constructor; simpl; intuition discriminate.
  - repeat constructor.
  - exists e'. split; [exact He|exact H].
Defined.

(** The [request] loop shifts the head of the array once per match. *)
Lemma request_loop_queue sm url fuel i acts r :
  List.length acts - i <= fuel ->
  fst (request_loop sm fuel i url acts r)
  = skipn (List.length (filter (fun a => sm url (pattern a)) (skipn i acts))) acts.
Proof.
  revert i acts r. induction fuel as [|fuel IH]; intros i acts r Hf.
  - simpl. replace (skipn i acts) with (@nil req_action)
      by (symmetry; apply skipn_all2; lia).
    reflexivity.
  - simpl. destruct (Nat.ltb_spec i (List.length acts)) as [Hlt|Hge].
    + destruct (nth_error acts i) as [a|] eqn:Ha.
      2:{ apply nth_error_None in Ha. lia. }
      rewrite (skipn_nth_error i acts a Ha). simpl.
      destruct (sm url (pattern a)) eqn:Hm.
      * rewrite IH.
        -- rewrite skipn_tl. cbn [List.length]. now rewrite skipn_tl.
        -- destruct acts as [|a0 acts]; cbn [tl List.length] in *; lia.
      * apply IH. lia.
    + simpl. replace (skipn i acts) with (@nil req_action)
      by (symmetry; apply skipn_all2; lia).
    reflexivity.
Qed.

(** The [request] handler removes one entry per matching waiter, always
    from the front of the collection ([actions.shift()]), whichever
    entries matched; when nothing matches it changes nothing. *)
Theorem request_shifts_front sm url r :
  requestingActions (on_request sm url r)
  = skipn (List.length (filter (fun a => sm url (pattern a)) (requestingActions r)))
          (requestingActions r)
  /\ (Forall (fun a => sm url (pattern a) = false) (requestingActions r) ->
      on_request sm url r = r).
Proof.
  assert (Hq := request_loop_queue sm url (List.length (requestingActions r)) 0
                  (requestingActions r) r ltac:(lia)).
  assert (Hs := request_loop_callbacks sm url (List.length (requestingActions r)) 0
                  (requestingActions r) r ltac:(lia)).
  unfold on_request.
  destruct (request_loop sm _ 0 url (requestingActions r) r) as [acts' r'] eqn:Hl.
  simpl in Hq, Hs. split.
  - exact Hq.
  - intros Hno.
    assert (Hf : filter (fun a => sm url (pattern a)) (requestingActions r) = []).
    { revert Hno. generalize (requestingActions r) as l.
      induction 1 as [|a l Ha _ IH]; [reflexivity|]. simpl. now rewrite Ha. }
    rewrite Hf in Hq, Hs. simpl in Hq, Hs. subst. destruct r; reflexivity.
Qed.

Lemma request_shifts_front_witness :
  requestingActions (on_request Regex.str_match "http://x/other" two_queries)
    = [mk_req_action "/other" 1]
  /\ on_request Regex.str_match "http://x/none" two_queries = two_queries.
Proof.
  split.
  - exact (proj1 (request_shifts_front Regex.str_match "http://x/other" two_queries)).
  - apply (proj2 (request_shifts_front Regex.str_match "http://x/none" two_queries)).
    repeat constructor.
Defined.
